(** * Quantum simulation of the 1-D periodic convection-diffusion-reaction
      equation: a shallow embedding of the two scripts

    The repository holds two straight-line numerical scripts,
    [1DPeriodicDiscretizedQuantumTime.py] (finite differences, noiseless
    backend, several times) and [1DPeriodicSpectralNoisyQuantumSingle.py]
    (spectral, noisy backend, one time).  Both are embedded here over the
    real numbers of the Standard Library: a [float64] is read as the real
    it denotes and a [complex128] as a pair of reals, so every statement
    below is a statement in exact arithmetic.  Operations of Python and of
    the libraries that can fail (an index out of range, the Python-level
    division [1/alpha], the amplitude check of [initialize]) return
    [option]. *)

From Stdlib Require Import Reals List Lia Lra Arith ZArith Bool.
Import ListNotations.
Local Open Scope R_scope.

(** ** Failure *)

Definition obind {A B : Type} (m : option A) (f : A -> option B) : option B :=
  match m with
  | Some a => f a
  | None => None
  end.

Notation "x <- m ;; k" := (obind m (fun x => k))
  (at level 61, m at next level, right associativity).

Fixpoint foldM {A B : Type} (f : B -> A -> option B) (l : list A) (b : B)
  : option B :=
  match l with
  | [] => Some b
  | a :: l' => b' <- f b a ;; foldM f l' b'
  end.

Fixpoint mapM {A B : Type} (f : A -> option B) (l : list A) : option (list B) :=
  match l with
  | [] => Some []
  | a :: l' => b <- f a ;; bs <- mapM f l' ;; Some (b :: bs)
  end.

(** ** Complex numbers ([complex128]) *)

Record complex : Type := mkC { re : R; im : R }.

Definition RtoC (x : R) : complex := mkC x 0.
Definition C0 : complex := RtoC 0.
Definition C1 : complex := RtoC 1.
(** Python's literal [1.j]. *)
Definition Cj : complex := mkC 0 1.

Definition Cadd (a b : complex) : complex := mkC (re a + re b) (im a + im b).
Definition Csub (a b : complex) : complex := mkC (re a - re b) (im a - im b).
Definition Cmul (a b : complex) : complex :=
  mkC (re a * re b - im a * im b) (re a * im b + im a * re b).
(** A complex number divided by a real one. *)
Definition Cdivr (a : complex) (x : R) : complex := mkC (re a / x) (im a / x).
(** [np.abs] on a complex number. *)
Definition Cabs (a : complex) : R := sqrt (re a * re a + im a * im a).
(** [np.exp] on a complex number. *)
Definition Cexp (a : complex) : complex :=
  mkC (exp (re a) * cos (im a)) (exp (re a) * sin (im a)).

(** ** Arrays *)

Definition matrix := list (list R).
Definition cmatrix := list (list complex).

Fixpoint zipWith {A B X : Type} (f : A -> B -> X) (l : list A) (l' : list B)
  : list X :=
  match l, l' with
  | a :: t, b :: t' => f a b :: zipWith f t t'
  | _, _ => []
  end.

Definition enumerate {A : Type} (l : list A) : list (nat * A) :=
  combine (seq 0 (length l)) l.

(** [np.sum] of a vector. *)
Definition Rsum (l : list R) : R := fold_right Rplus 0 l.
Definition Csum (l : list complex) : complex := fold_right Cadd C0 l.

(** [np.linspace(start, stop, num, endpoint=False)]. *)
Definition linspace (start stop : R) (num : nat) : list R :=
  map (fun i => INR i * ((stop - start) / INR num) + start) (seq 0 num).

(** [np.linspace(start, stop, num)], the end point included. *)
Definition linspace_closed (start stop : R) (num : nat) : list R :=
  map (fun i => INR i * ((stop - start) / INR (num - 1)) + start) (seq 0 num).

Definition zeros2 (r c : nat) : matrix := repeat (repeat 0 c) r.

Definition eye (n : nat) : matrix :=
  map (fun i => map (fun j => if Nat.eqb i j then 1 else 0) (seq 0 n)) (seq 0 n).

Definition mmap {A B : Type} (f : A -> B) (M : list (list A)) : list (list B) :=
  map (map f) M.

(** Element-wise sum and difference of two arrays of one shape. *)
Definition madd (M N : matrix) : matrix := zipWith (zipWith Rplus) M N.
Definition msub (M N : matrix) : matrix := zipWith (zipWith Rminus) M N.

Definition entry (M : matrix) (i j : nat) : R := nth j (nth i M []) 0.
Definition centry (M : cmatrix) (i j : nat) : complex := nth j (nth i M []) C0.

Definition ncols {A : Type} (M : list (list A)) : nat :=
  match M with
  | [] => 0%nat
  | r :: _ => length r
  end.

(** [A.H] on a real [np.matrix]: the conjugate of a [float64] is itself, so
    the conjugate transpose is the transpose. *)
Definition Hermitian_transpose (M : matrix) : matrix :=
  map (fun j => map (fun row => nth j row 0) M) (seq 0 (ncols M)).

(** An index as Python reads it: a negative one counts from the end, one
    out of range raises [IndexError]. *)
Definition norm_index (n : nat) (i : Z) : option nat :=
  if (0 <=? i)%Z then
    if (i <? Z.of_nat n)%Z then Some (Z.to_nat i) else None
  else
    if (- Z.of_nat n <=? i)%Z then Some (Z.to_nat (i + Z.of_nat n)) else None.

Fixpoint list_set {A : Type} (l : list A) (i : nat) (v : A) : list A :=
  match l, i with
  | [], _ => []
  | _ :: t, O => v :: t
  | a :: t, Datatypes.S i' => a :: list_set t i' v
  end.

(** The assignment [M[i, j] = v]. *)
Definition setitem2 (M : matrix) (i j : Z) (v : R) : option matrix :=
  r <- norm_index (length M) i ;;
  row <- nth_error M r ;;
  c <- norm_index (length row) j ;;
  Some (list_set M r (list_set row c v)).

(** [np.diag] of a vector. *)
Definition diag (d : list R) : matrix :=
  map (fun '(i, a) =>
         map (fun j => if Nat.eqb i j then a else 0) (seq 0 (length d)))
      (enumerate d).

(** Matrix times vector, over the complex numbers. *)
Definition cmat_vec (U : cmatrix) (v : list complex) : list complex :=
  map (fun row => Csum (zipWith Cmul row v)) U.

Definition czeros2 (r c : nat) : cmatrix := repeat (repeat C0 c) r.
Definition ceye (n : nat) : cmatrix :=
  map (fun i => map (fun j => if Nat.eqb i j then C1 else C0) (seq 0 n)) (seq 0 n).

(** ** The two library transforms

    [fft.fftfreq] and [fft.fft] belong to SciPy; they are given here by
    their documented definitions. *)

(** The integer frequency bins [0, 1, ..., (n-1)//2, -(n//2), ..., -1]. *)
Definition fftfreq_bins (n : nat) : list Z :=
  let N := Z.to_nat ((Z.of_nat n - 1) / 2 + 1) in
  map Z.of_nat (seq 0 N)
  ++ map (fun i => (Z.of_nat i - Z.of_nat (n / 2))%Z) (seq 0 (n / 2)).

(** [fft.fftfreq(n)]: the bins times [1/n] (sample spacing 1). *)
Definition fftfreq (n : nat) : list R :=
  map (fun m => IZR m * (1 / INR n)) (fftfreq_bins n).

(** [fft.fft(v, norm='forward')]:
    [c_k = (1/N) * sum_n v_n * exp(-2 pi j k n / N)]. *)
Definition fft_forward (v : list R) : list complex :=
  let N := length v in
  map (fun k =>
         Cdivr (Csum (map (fun '(n, a) =>
                             Cmul (RtoC a)
                               (Cexp (mkC 0 (- (2 * PI * INR k * INR n / INR N)))))
                          (enumerate v)))
               (INR N))
      (seq 0 N).

(** ** Circuits

    A [QuantumCircuit] on the one register [qr] is the list of the
    instructions appended to it. *)

Inductive instruction : Type :=
| Initialize (amplitudes : list complex)
| Barrier
| UnitaryOp (U : cmatrix)
| QFT (n : nat)
| QFT_inverse (n : nat)
| SaveStatevector.

Definition QuantumCircuit := list instruction.

Definition append (qc : QuantumCircuit) (ins : instruction) : QuantumCircuit :=
  qc ++ [ins].

(** [circ.initialize(params, qr)] on a register of [nq] qubits: Qiskit
    raises unless there are [2 ** nq] amplitudes whose squared moduli sum
    to one. *)
Definition initialize (nq : nat) (params : list complex) : option instruction :=
  if Nat.eqb (length params) (2 ^ nq) then
    if Req_dec_T (Rsum (map (fun a => Cabs a * Cabs a) params)) 1
    then Some (Initialize params)
    else None
  else None.

(** The state the scripts prepare for the coefficient [c]:
    [initialize(u0*c/np.abs(c), qr)].  When [np.abs(c)] is zero the
    quotient is a vector of NaN, which [initialize] rejects. *)
Definition prepare (nq : nat) (u0 : list R) (c : complex) : option instruction :=
  if Req_dec_T (Cabs c) 0 then None
  else initialize nq (map (fun a => Cdivr (Cmul (RtoC a) c) (Cabs c)) u0).

(** The unitary of [QFT(n)] and of its inverse on a state vector. *)
Definition qft_apply (sign : R) (st : list complex) : list complex :=
  let N := length st in
  map (fun k =>
         Cdivr (Csum (map (fun '(n, a) =>
                             Cmul a
                               (Cexp (mkC 0 (sign * (2 * PI * INR k * INR n / INR N)))))
                          (enumerate st)))
               (sqrt (INR N)))
      (seq 0 N).

(** The noiseless state-vector backend, one instruction at a time. *)
Definition step (st : list complex) (ins : instruction) : list complex :=
  match ins with
  | Initialize amplitudes => amplitudes
  | Barrier => st
  | UnitaryOp U => cmat_vec U st
  | QFT _ => qft_apply 1 st
  | QFT_inverse _ => qft_apply (-1) st
  | SaveStatevector => st
  end.

(** [backend.run(qc).result().get_statevector(qc)] without noise, from
    the all-zero basis state. *)
Definition get_statevector (nq : nat) (qc : QuantumCircuit) : list complex :=
  fold_left step qc (C1 :: repeat C0 (2 ^ nq - 1)).

(** ** What the two scripts share

    The initial field, the auxiliary profile with its transform and the
    recombination are the same text in both scripts. *)

Module Common.

Section Initialization.
Variables (wx : R) (nx : nat).

Definition L : R := wx * PI.
Definition x : list R := linspace (- L / 2) (L / 2) nx.

Definition k_s : list R := [1; 3].
Definition k_c : list R := [2].

Definition u_init : list R :=
  let u := repeat 0 (length x) in
  let u := fold_left
             (fun u k => zipWith Rplus u (map (fun xi => sin (k * xi)) x))
             k_s u in
  fold_left
    (fun u k => zipWith Rplus u (map (fun xi => cos (k * xi)) x))
    k_c u.
End Initialization.

Section Normalization.
(** [u] is the initial field, [u_init] in the scripts. *)
Variable u : list R.

Definition u_init_norm : R := sqrt (Rsum (map (fun a => a * a) u)).
Definition u0 : list R := map (fun a => a / u_init_norm) u.
End Normalization.

Section Auxiliary.
Variables (ny : nat) (wy shift alpha bzone : R).

Definition y : list R :=
  linspace (- PI * (wy / 2 + shift)) (PI * (wy / 2 - shift)) ny.

Definition bottom : R := exp (- PI * (wy / 2 - shift)).

(** The body of the loop that fills [v_init], at the axis point [vy].
    [1/alpha] is a division of Python numbers and raises for a zero
    [alpha]. *)
Definition v_init_at (vy : R) : option R :=
  if Rlt_dec vy (- PI * (wy / 2 + shift - bzone)) then Some 0
  else if Rgt_dec vy (PI * (wy / 2 - shift - bzone)) then Some 0
  else if Rlt_dec vy (- PI * shift) then
    if Req_dec_T alpha 0 then None
    else
      let tmp := exp (alpha * (vy + shift * (1 + 1 / alpha) * PI)) in
      Some (if Rlt_dec tmp bottom then bottom else tmp)
  else Some (exp (- vy)).

Definition v_init : option (list R) := mapM v_init_at y.

Definition kv : list R := map (fun f => f * INR ny * 2 / wy) (fftfreq ny).
End Auxiliary.

Definition fv (v_init : list R) : list complex := fft_forward v_init.

Section Recombination.
Variables (ny : nat) (wy : R).
Variables (states : list (list complex)) (fv : list complex) (kv : list R).
Variables (u_init_norm : R) (y : list R).

Definition idx : nat := 0.

(** [np.exp(1.j*np.pi*k*wy/2*2*(ny/2+idx)/ny)] *)
Definition phase (k : R) : complex :=
  Cexp (Cdivr
          (Cmul
             (Cmul (Cdivr (Cmul (Cmul (Cmul Cj (RtoC PI)) (RtoC k)) (RtoC wy)) 2)
                   (RtoC 2))
             (RtoC (INR ny / 2 + INR idx)))
          (INR ny)).

(** [soln += term]: the shapes agree, or [term] has one entry and is
    broadcast; anything else raises. *)
Definition iadd (soln term : list complex) : option (list complex) :=
  if Nat.eqb (length term) (length soln) then Some (zipWith Cadd soln term)
  else
    match term with
    | [a] => Some (map (fun s => Cadd s a) soln)
    | _ => None
    end.

(** The accumulation loop over [enumerate(kv)]. *)
Definition soln_sum (nx : nat) : option (list complex) :=
  foldM (fun soln '(i, k) =>
           st <- nth_error states i ;;
           c <- nth_error fv i ;;
           iadd soln
             (map (fun s => Cmul (Cmul s (RtoC (Cabs c))) (phase k)) st))
        (enumerate kv) (repeat C0 nx).

(** [soln] after the two rescalings. *)
Definition soln (nx : nat) : option (list complex) :=
  s <- soln_sum nx ;;
  let s := map (fun a => Cmul a (RtoC u_init_norm)) s in
  ymid <- nth_error y (ny / 2 + idx) ;;
  Some (map (fun a => Cmul a (RtoC (exp ymid))) s).

(** [soln.real] *)
Definition soln_real (nx : nat) : option (list R) :=
  s <- soln nx ;; Some (map re s).
End Recombination.

Section Reference.
Variables (C D S wx : R) (nx : nat).

(** The closed-form solution [ut] that both scripts plot, at the time [t]. *)
Definition ut (t : R) : list R :=
  let x := x wx nx in
  let ut := repeat 0 (length x) in
  let ut := fold_left
              (fun ut k =>
                 zipWith Rplus ut
                   (map (fun xi => sin (k * (xi - C * t))
                                   * exp ((- D * (k * k) + S) * t)) x))
              k_s ut in
  fold_left
    (fun ut k =>
       zipWith Rplus ut
         (map (fun xi => cos (k * (xi - C * t))
                         * exp ((- D * (k * k) + S) * t)) x))
    k_c ut.
End Reference.

End Common.

(** ** The finite-difference script *)

Module Discretized.

Section Operator.
Variables (C D S : R) (nx : nat) (dx : R).

(** The entries of [AC] before the scaling. *)
Definition AC_stencil : option matrix :=
  AC <- foldM (fun AC i =>
                 AC <- setitem2 AC (Z.of_nat i) (Z.of_nat i + 1) 1 ;;
                 setitem2 AC (Z.of_nat i + 1) (Z.of_nat i) (-1))
              (seq 0 (nx - 1)) (zeros2 nx nx) ;;
  AC <- setitem2 AC 0 (-1) (-1) ;;
  setitem2 AC (-1) 0 1.

Definition AC : option matrix :=
  AC <- AC_stencil ;; Some (mmap (fun a => a * C / (2 * dx)) AC).

(** The entries of [AD] before the scaling. *)
Definition AD_stencil : option matrix :=
  AD <- foldM (fun AD i =>
                 AD <- setitem2 AD (Z.of_nat i) (Z.of_nat i + 1) (-1) ;;
                 setitem2 AD (Z.of_nat i + 1) (Z.of_nat i) (-1))
              (seq 0 (nx - 1)) (mmap (fun a => 2 * a) (eye nx)) ;;
  AD <- setitem2 AD 0 (-1) (-1) ;;
  setitem2 AD (-1) 0 (-1).

Definition AD : option matrix :=
  AD <- AD_stencil ;; Some (mmap (fun a => a * D / (dx * dx)) AD).

Definition AS : matrix := mmap (fun a => - S * a) (eye nx).

Definition A : option matrix :=
  AC <- AC ;; AD <- AD ;; Some (madd (madd AC AD) AS).
End Operator.

Section Split.
Variable A : matrix.

Definition AH : matrix := Hermitian_transpose A.
Definition H1 : matrix := mmap (fun a => a / 2) (madd A AH).
Definition H2 : matrix := mmap (fun a => a / 2) (msub A AH).

(** [M = 1.j*k*H1 - H2] *)
Definition M (k : R) : cmatrix :=
  zipWith
    (zipWith (fun h1 h2 => Csub (Cmul (Cmul Cj (RtoC k)) (RtoC h1)) (RtoC h2)))
    H1 H2.

(** The argument [M*t] of [linalg.expm]. *)
Definition Mt (k t : R) : cmatrix := mmap (fun m => Cmul m (RtoC t)) (M k).
End Split.

Section Script.
Variables (C D S wx : R) (nq nx ny : nat) (wy shift alpha bzone : R).
(** The initial field. *)
Variable u : list R.
(** [scipy.linalg.expm], a function of the library. *)
Variable expm : cmatrix -> cmatrix.

Definition time : list R := linspace_closed 0 1 11.

Definition dx : R := Common.L wx / INR nx.

Definition U (A : matrix) (k t : R) : cmatrix := expm (Mt A k t).

(** The circuit of one frequency at one time. *)
Definition qc (A : matrix) (c : complex) (k t : R) : option QuantumCircuit :=
  circ_init_u_inst <- prepare nq (Common.u0 u) c ;;
  let qc := append [] circ_init_u_inst in
  let qc := append qc Barrier in
  Some (append qc (UnitaryOp (U A k t))).

Definition state (A : matrix) (fv : list complex) (t : R) (i : nat) (k : R)
  : option (list complex) :=
  c <- nth_error fv i ;;
  qc <- qc A c k t ;;
  Some (get_statevector nq qc).

Definition states (A : matrix) (fv : list complex) (t : R)
  : option (list (list complex)) :=
  mapM (fun '(i, k) => state A fv t i k) (enumerate (Common.kv ny wy)).

(** One pass of the loop over [time]: the column [results[:, j]]. *)
Definition column (A : matrix) (v_init : list R) (t : R) : option (list R) :=
  let fv := Common.fv v_init in
  states <- states A fv t ;;
  Common.soln_real ny wy states fv (Common.kv ny wy)
    (Common.u_init_norm u) (Common.y ny wy shift) nx.

(** The columns of [results], in the order of [time]. *)
Definition results : option (list (list R)) :=
  v_init <- Common.v_init ny wy shift alpha bzone ;;
  A <- A C D S nx dx ;;
  mapM (column A v_init) time.
End Script.

(** [v_init0], the profile without the floored branch: [exp(y)] on the
    entries before [int(ny/2)] and [exp(-y)] from there on. *)
Definition v_init0 (ny : nat) (wy shift : R) : list R :=
  let y := Common.y ny wy shift in
  map exp (firstn (ny / 2) y) ++ map (fun a => exp (- a)) (skipn (ny / 2) y).

End Discretized.

(** ** The spectral script *)

Module Spectral.

Section Script.
Variables (C D S wx : R) (nq nx ny : nat) (wy shift alpha bzone : R).
Variable time : R.
Variable u : list R.
Variable expm : cmatrix -> cmatrix.
(** The state vector that the noisy backend returns for a circuit. *)
Variable noisy_statevector : QuantumCircuit -> list complex.

Definition kx : list R :=
  map (fun f => f * INR nx * 2 * PI / Common.L wx) (fftfreq nx).

Definition H (k : R) : matrix :=
  diag (map (fun kx => C * kx + D * k * (kx * kx) - S * k) kx).

(** The argument [1.j*H*time] of [linalg.expm]. *)
Definition Ht (k : R) : cmatrix :=
  mmap (fun h => Cmul (Cmul Cj (RtoC h)) (RtoC time)) (H k).

Definition U (k : R) : cmatrix := expm (Ht k).

(** The circuit of one frequency. *)
Definition qc (c : complex) (k : R) : option QuantumCircuit :=
  circ_init_inst <- prepare nq (Common.u0 u) c ;;
  let qc := append [] circ_init_inst in
  let qc := append qc Barrier in
  let qc := append qc (QFT nq) in
  let qc := append qc Barrier in
  let qc := append qc (UnitaryOp (U k)) in
  let qc := append qc Barrier in
  let qc := append qc (QFT_inverse nq) in
  let qc := append qc Barrier in
  Some (append qc SaveStatevector).

Definition states (fv : list complex) : option (list (list complex)) :=
  mapM (fun '(i, k) =>
          c <- nth_error fv i ;;
          qc <- qc c k ;;
          Some (noisy_statevector qc))
       (enumerate (Common.kv ny wy)).

Definition soln : option (list complex) :=
  v_init <- Common.v_init ny wy shift alpha bzone ;;
  let fv := Common.fv v_init in
  states <- states fv ;;
  Common.soln ny wy states fv (Common.kv ny wy)
    (Common.u_init_norm u) (Common.y ny wy shift) nx.
End Script.

End Spectral.

(** ** Specification-side definitions *)

(** An array of [r] rows of [c] entries each. *)
Definition shape {X : Type} (r c : nat) (M : list (list X)) : Prop :=
  length M = r /\ Forall (fun row => length row = c) M.

(** The array [M] with the entry at row [i], column [j] replaced. *)
Definition mset (M : matrix) (i j : nat) (v : R) : matrix :=
  list_set M i (list_set (nth i M []) j v).

(** The array whose entries are given by [f]. *)
Definition tabulate {X : Type} (r c : nat) (f : nat -> nat -> X) : list (list X) :=
  map (fun i => map (fun j => f i j) (seq 0 c)) (seq 0 r).

Definition delta (i j : nat) : R := if Nat.eqb i j then 1 else 0.

(** The periodic central difference: [+1] right of the diagonal, [-1] left
    of it, and the two wrap-around corners, [-1] at [0, n-1] and [+1] at
    [n-1, 0], written last. *)
Definition central_difference (n i j : nat) : R :=
  if Nat.eqb i (n - 1) && Nat.eqb j 0 then 1
  else if Nat.eqb i 0 && Nat.eqb j (n - 1) then -1
  else if Nat.eqb j (i + 1) then 1
  else if Nat.eqb i (j + 1) then -1
  else 0.

(** The periodic second difference as the script signs it: [2] on the
    diagonal, [-1] on both neighbours and in the two corners. *)
Definition second_difference (n i j : nat) : R :=
  if Nat.eqb i (n - 1) && Nat.eqb j 0 then -1
  else if Nat.eqb i 0 && Nat.eqb j (n - 1) then -1
  else if Nat.eqb j (i + 1) then -1
  else if Nat.eqb i (j + 1) then -1
  else 2 * delta i j.

(** The same two stencils by the neighbour modulo [n]. *)
Definition central_difference_mod (n i j : nat) : R :=
  delta j ((i + 1) mod n) - delta i ((j + 1) mod n).

Definition second_difference_mod (n i j : nat) : R :=
  2 * delta i j - delta j ((i + 1) mod n) - delta i ((j + 1) mod n).


(** The operator with the reaction term the script assembles, [- S] times
    the identity. *)
Definition A_entries (C D S : R) (nx : nat) (dx : R) : matrix :=
  tabulate nx nx (fun i j =>
    C / (2 * dx) * central_difference nx i j
    + D / (dx * dx) * second_difference nx i j
    - S * delta i j).

(** The body shared by the two loops over [range(nx-1)]: [v1] is written
    right of the diagonal and [v2] left of it. *)
Definition band_body (v1 v2 : R) (M : matrix) (i : nat) : option matrix :=
  M <- setitem2 M (Z.of_nat i) (Z.of_nat i + 1) v1 ;;
  setitem2 M (Z.of_nat i + 1) (Z.of_nat i) v2.

(** The entries after such a loop over [seq s len] on an array [f]. *)
Definition band_entries (v1 v2 : R) (s len : nat) (f : nat -> nat -> R)
           (a b : nat) : R :=
  if Nat.eqb b (a + 1) && Nat.leb s a && Nat.ltb a (s + len) then v1
  else if Nat.eqb a (b + 1) && Nat.leb s b && Nat.ltb b (s + len) then v2
  else f a b.

(** The profile policy of the specification, in its priority order: zero
    outside the closed window, the floored exponential left of
    [- pi * shift], the decaying exponential elsewhere. *)
Definition AuxiliaryProfile (wy shift alpha bzone : R) (vy : R) : R :=
  if Rle_dec (- PI * (wy / 2 + shift - bzone)) vy then
    if Rle_dec vy (PI * (wy / 2 - shift - bzone)) then
      if Rlt_dec vy (- PI * shift) then
        Rmax (exp (alpha * (vy + shift * (1 + 1 / alpha) * PI)))
             (exp (- PI * (wy / 2 - shift)))
      else exp (- vy)
    else 0
  else 0.

(** The signed integer bin of index [i] on a grid of [n] points. *)
Definition FFT_bin (n i : nat) : Z :=
  if Nat.leb i ((n - 1) / 2) then Z.of_nat i else (Z.of_nat i - Z.of_nat n)%Z.

(** The Euclidean norm of a real vector. *)
Definition norm2 (v : list R) : R := sqrt (Rsum (map (fun a => a * a) v)).

(** The Euclidean norm of a complex vector. *)
Definition cnorm2 (v : list complex) : R :=
  sqrt (Rsum (map (fun z => Cabs z * Cabs z) v)).

(** The unit-phase factor [c/|c|] of a coefficient. *)
Definition phase_factor (c : complex) : complex := Cdivr c (Cabs c).

(** The recombination formula of the specification: the real part of the
    weighted sum over the frequency components, times the norm of the
    initial field and the exponential of the axis point of index
    [ny/2 + idx]. *)
Definition ReconstructedSolution (ny : nat) (wy : R)
           (states : list (list complex)) (fv : list complex) (kv : list R)
           (u_init_norm : R) (y : list R) (nx : nat) : list R :=
  map (fun j =>
         re (Csum (map (fun i =>
                         Cmul (Cmul (nth j (nth i states []) C0)
                                    (RtoC (Cabs (nth i fv C0))))
                              (Cexp (mkC 0 (PI * nth i kv 0 * (wy / 2) * 2
                                            * (INR ny / 2 + INR Common.idx)
                                            / INR ny))))
                      (seq 0 (length kv))))
         * u_init_norm * exp (nth (ny / 2 + Common.idx) y 0))
      (seq 0 nx).

(** The point of the unit circle at the angle [theta]. *)
Definition cis (theta : R) : complex := mkC (cos theta) (sin theta).

Definition Copp (a : complex) : complex := mkC (- re a) (- im a).

(** The sum of [f 0], ..., [f (n-1)]. *)
Definition Csigma (n : nat) (f : nat -> complex) : complex :=
  Csum (map f (seq 0 n)).

Definition Cconj (a : complex) : complex := mkC (re a) (- im a).

(** The weight of line 155 of the finite-difference script with the index
    [ny/2 + idx] replaced by an arbitrary axis index [j]:
    [exp(1.j*pi*k*wy/2*2*j/ny)]. *)
Definition inverse_basis (ny : nat) (wy k : R) (j : nat) : complex :=
  Cexp (Cdivr
          (Cmul
             (Cmul (Cdivr (Cmul (Cmul (Cmul Cj (RtoC PI)) (RtoC k)) (RtoC wy)) 2)
                   (RtoC 2))
             (RtoC (INR j)))
          (INR ny)).

(** The right and left neighbours of the point [i] on a ring of [n]. *)
Definition ring_next (n i : nat) : nat :=
  if Nat.eqb i (n - 1) then 0%nat else (i + 1)%nat.
Definition ring_prev (n i : nat) : nat :=
  if Nat.eqb i 0 then (n - 1)%nat else (i - 1)%nat.

(** * Proofs *)

(** ** Lists and arrays *)

Lemma obind_Some {A B : Type} (m : option A) (f : A -> option B) (b : B) :
  obind m f = Some b <-> exists a, m = Some a /\ f a = Some b.
Proof.
  destruct m as [a|]; simpl; split.
  - intros Hf. exists a. split; [reflexivity | exact Hf].
  - intros [a' [Ha Hf]]. injection Ha as ->. exact Hf.
  - discriminate.
  - intros [a' [Ha _]]. discriminate.
Qed.

Lemma list_set_length {X : Type} (l : list X) (i : nat) (v : X) :
  length (list_set l i v) = length l.
Proof.
  revert i. induction l as [|a l IH]; intros [|i]; simpl; auto.
Qed.

Lemma nth_list_set {X : Type} (l : list X) (i k : nat) (v d : X) :
  (i < length l)%nat ->
  nth k (list_set l i v) d = if Nat.eqb k i then v else nth k l d.
Proof.
  revert i k. induction l as [|a l IH]; intros i k Hi; simpl in Hi.
  - lia.
  - destruct i as [|i]; destruct k as [|k]; simpl; auto.
    apply IH. lia.
Qed.

Lemma nth_list_set_out {X : Type} (l : list X) (i k : nat) (v d : X) :
  k <> i -> nth k (list_set l i v) d = nth k l d.
Proof.
  revert i k. induction l as [|a l IH]; intros i k Hk; simpl.
  - reflexivity.
  - destruct i as [|i]; destruct k as [|k]; simpl; auto; try lia.
Qed.

Lemma nth_map_seq {X : Type} (f : nat -> X) (s n i : nat) (d : X) :
  (i < n)%nat -> nth i (map f (seq s n)) d = f (s + i)%nat.
Proof.
  intros Hi.
  rewrite (nth_indep _ d (f 0%nat)) by now rewrite length_map, length_seq.
  rewrite (map_nth f (seq s n) 0%nat i).
  now rewrite seq_nth.
Qed.

Lemma nth_map_in {X Y : Type} (f : X -> Y) (l : list X) (i : nat) (d : X) (e : Y) :
  (i < length l)%nat -> nth i (map f l) e = f (nth i l d).
Proof.
  intros Hi.
  rewrite (nth_indep _ e (f d)) by now rewrite length_map.
  apply map_nth.
Qed.

Lemma shape_length {X : Type} (r c : nat) (M : list (list X)) :
  shape r c M -> length M = r.
Proof. intros [H _]. exact H. Qed.

Lemma shape_row {X : Type} (r c : nat) (M : list (list X)) (i : nat) :
  shape r c M -> (i < r)%nat -> length (nth i M []) = c.
Proof.
  intros [Hl Hf] Hi. rewrite Forall_forall in Hf.
  apply Hf. apply nth_In. lia.
Qed.

Lemma shape_intro {X : Type} (r c : nat) (M : list (list X)) :
  length M = r ->
  (forall i, (i < r)%nat -> length (nth i M []) = c) ->
  shape r c M.
Proof.
  intros Hl Hr. split; [exact Hl|].
  apply Forall_forall. intros row Hin.
  destruct (In_nth _ _ [] Hin) as [i [Hi <-]].
  apply Hr. lia.
Qed.

Lemma shape_tabulate {X : Type} (r c : nat) (f : nat -> nat -> X) :
  shape r c (tabulate r c f).
Proof.
  unfold tabulate. split.
  - now rewrite length_map, length_seq.
  - apply Forall_forall. intros row Hin.
    apply in_map_iff in Hin. destruct Hin as [i [<- _]].
    now rewrite length_map, length_seq.
Qed.

Lemma nth_tabulate {X : Type} (r c : nat) (f : nat -> nat -> X) (i j : nat) (d : X) :
  (i < r)%nat -> (j < c)%nat -> nth j (nth i (tabulate r c f) []) d = f i j.
Proof.
  intros Hi Hj. unfold tabulate.
  rewrite (nth_indep _ [] (map (fun j => f 0%nat j) (seq 0 c)))
    by now rewrite length_map, length_seq.
  rewrite (map_nth (fun i => map (fun j => f i j) (seq 0 c)) (seq 0 r) 0%nat i).
  rewrite seq_nth by lia. simpl.
  rewrite (nth_indep _ d (f i 0%nat)) by now rewrite length_map, length_seq.
  rewrite (map_nth (fun j => f i j) (seq 0 c) 0%nat j).
  now rewrite seq_nth by lia.
Qed.

(** Two arrays of one shape with the same entries are equal. *)
Lemma array_ext {X : Type} (r c : nat) (M N : list (list X)) (d : X) :
  shape r c M -> shape r c N ->
  (forall i j, (i < r)%nat -> (j < c)%nat ->
     nth j (nth i M []) d = nth j (nth i N []) d) ->
  M = N.
Proof.
  intros HM HN He.
  apply (nth_ext M N [] []).
  - now rewrite (shape_length _ _ _ HM), (shape_length _ _ _ HN).
  - intros i Hi. rewrite (shape_length _ _ _ HM) in Hi.
    apply (nth_ext _ _ d d).
    + now rewrite (shape_row _ _ _ _ HM Hi), (shape_row _ _ _ _ HN Hi).
    + intros j Hj. rewrite (shape_row _ _ _ _ HM Hi) in Hj. now apply He.
Qed.

Lemma tabulate_of_entries {X : Type} (r c : nat) (M : list (list X)) (d : X)
      (f : nat -> nat -> X) :
  shape r c M ->
  (forall i j, (i < r)%nat -> (j < c)%nat -> nth j (nth i M []) d = f i j) ->
  M = tabulate r c f.
Proof.
  intros HM He. apply (array_ext r c _ _ d HM (shape_tabulate r c f)).
  intros i j Hi Hj. rewrite nth_tabulate by assumption. now apply He.
Qed.

Lemma zeros2_tabulate (r c : nat) : zeros2 r c = tabulate r c (fun _ _ => 0).
Proof.
  apply (tabulate_of_entries r c _ 0).
  - split.
    + apply repeat_length.
    + apply Forall_forall. intros row Hin.
      apply repeat_spec in Hin. subst row. apply repeat_length.
  - intros i j Hi Hj. unfold zeros2.
    rewrite (nth_repeat_lt (repeat 0 c) []) by exact Hi.
    now rewrite nth_repeat_lt.
Qed.

Lemma eye_tabulate (n : nat) : eye n = tabulate n n delta.
Proof. reflexivity. Qed.

Lemma mmap_tabulate {X Y : Type} (g : X -> Y) (r c : nat) (f : nat -> nat -> X) :
  mmap g (tabulate r c f) = tabulate r c (fun i j => g (f i j)).
Proof.
  unfold mmap, tabulate. rewrite map_map.
  apply map_ext. intros i. now rewrite map_map.
Qed.

Lemma zipWith_map_seq {X Y W : Type} (g : X -> Y -> W) (f : nat -> X) (h : nat -> Y)
      (s n : nat) :
  zipWith g (map f (seq s n)) (map h (seq s n)) = map (fun i => g (f i) (h i)) (seq s n).
Proof.
  revert s. induction n as [|n IH]; intros s; simpl.
  - reflexivity.
  - now rewrite IH.
Qed.

Lemma zipWith_tabulate {X Y W : Type} (g : X -> Y -> W) (r c : nat)
      (f : nat -> nat -> X) (h : nat -> nat -> Y) :
  zipWith (zipWith g) (tabulate r c f) (tabulate r c h)
  = tabulate r c (fun i j => g (f i j) (h i j)).
Proof.
  unfold tabulate.
  rewrite (zipWith_map_seq (zipWith g)).
  apply map_ext. intros i. apply zipWith_map_seq.
Qed.

Lemma tabulate_ext {X : Type} (r c : nat) (f h : nat -> nat -> X) :
  (forall i j, (i < r)%nat -> (j < c)%nat -> f i j = h i j) ->
  tabulate r c f = tabulate r c h.
Proof.
  intros He. unfold tabulate.
  apply map_ext_in. intros i Hi. apply in_seq in Hi.
  apply map_ext_in. intros j Hj. apply in_seq in Hj.
  apply He; lia.
Qed.

Lemma entry_tabulate (r c : nat) (f : nat -> nat -> R) (i j : nat) :
  (i < r)%nat -> (j < c)%nat -> entry (tabulate r c f) i j = f i j.
Proof. intros Hi Hj. unfold entry. now apply nth_tabulate. Qed.

Lemma transpose_tabulate (n : nat) (f : nat -> nat -> R) :
  Hermitian_transpose (tabulate n n f) = tabulate n n (fun i j => f j i).
Proof.
  unfold Hermitian_transpose.
  assert (Hc : ncols (tabulate n n f) = n).
  { destruct n as [|n]; [reflexivity|].
    unfold tabulate. simpl. now rewrite length_map, length_seq. }
  rewrite Hc. unfold tabulate at 2.
  apply map_ext_in. intros j Hj. apply in_seq in Hj.
  unfold tabulate. rewrite map_map.
  apply map_ext_in. intros i Hi. apply in_seq in Hi.
  rewrite (nth_indep _ 0 (f i 0%nat)) by (rewrite length_map, length_seq; lia).
  rewrite (map_nth (fun j => f i j) (seq 0 n) 0%nat j).
  now rewrite seq_nth by lia.
Qed.

(** ** Indexing and assignment *)

Lemma norm_index_nat (n i : nat) :
  (i < n)%nat -> norm_index n (Z.of_nat i) = Some i.
Proof.
  intros Hi. unfold norm_index.
  destruct (Z.leb_spec 0 (Z.of_nat i)); [|lia].
  destruct (Z.ltb_spec (Z.of_nat i) (Z.of_nat n)); [|lia].
  now rewrite Nat2Z.id.
Qed.

Lemma norm_index_nat_succ (n i : nat) :
  (i + 1 < n)%nat -> norm_index n (Z.of_nat i + 1) = Some (i + 1)%nat.
Proof.
  intros Hi. replace (Z.of_nat i + 1)%Z with (Z.of_nat (i + 1)) by lia.
  now apply norm_index_nat.
Qed.

Lemma norm_index_last (n : nat) :
  (1 <= n)%nat -> norm_index n (-1) = Some (n - 1)%nat.
Proof.
  intros Hn. unfold norm_index.
  destruct (Z.leb_spec 0 (-1)); [lia|].
  destruct (Z.leb_spec (- Z.of_nat n) (-1)); [|lia].
  f_equal. lia.
Qed.

Lemma norm_index_empty (i : Z) : norm_index 0 i = None.
Proof.
  unfold norm_index.
  destruct (Z.leb_spec 0 i).
  - destruct (Z.ltb_spec i (Z.of_nat 0)); [simpl in *; lia | reflexivity].
  - destruct (Z.leb_spec (- Z.of_nat 0) i); [simpl in *; lia | reflexivity].
Qed.

(** An assignment in range succeeds and is the pure update. *)
Lemma setitem2_in_range (n : nat) (M : matrix) (zi zj : Z) (i j : nat) (v : R) :
  shape n n M ->
  norm_index n zi = Some i -> norm_index n zj = Some j ->
  (i < n)%nat -> (j < n)%nat ->
  setitem2 M zi zj v = Some (mset M i j v).
Proof.
  intros HM Hzi Hzj Hi Hj. unfold setitem2.
  rewrite (shape_length _ _ _ HM), Hzi. simpl.
  rewrite (nth_error_nth' M []) by (rewrite (shape_length _ _ _ HM); exact Hi).
  simpl. rewrite (shape_row _ _ _ _ HM Hi), Hzj. reflexivity.
Qed.

Lemma shape_mset (n : nat) (M : matrix) (i j : nat) (v : R) :
  shape n n M -> (i < n)%nat -> shape n n (mset M i j v).
Proof.
  intros HM Hi. unfold mset. apply shape_intro.
  - rewrite list_set_length. exact (shape_length _ _ _ HM).
  - intros k Hk.
    rewrite nth_list_set by (rewrite (shape_length _ _ _ HM); exact Hi).
    destruct (Nat.eqb k i).
    + rewrite list_set_length. exact (shape_row _ _ _ _ HM Hi).
    + exact (shape_row _ _ _ _ HM Hk).
Qed.

Lemma entry_mset (n : nat) (M : matrix) (i j a b : nat) (v : R) :
  shape n n M -> (i < n)%nat -> (j < n)%nat ->
  entry (mset M i j v) a b
  = if Nat.eqb a i && Nat.eqb b j then v else entry M a b.
Proof.
  intros HM Hi Hj. unfold entry, mset.
  rewrite nth_list_set by (rewrite (shape_length _ _ _ HM); exact Hi).
  destruct (Nat.eqb_spec a i) as [->|Hai]; simpl.
  - rewrite nth_list_set by (rewrite (shape_row _ _ _ _ HM Hi); exact Hj).
    reflexivity.
  - reflexivity.
Qed.

(** ** The two banded loops *)

Ltac bool_cases :=
  repeat match goal with
         | |- context [Nat.eqb ?a ?b] => destruct (Nat.eqb_spec a b)
         | |- context [Nat.leb ?a ?b] => destruct (Nat.leb_spec a b)
         | |- context [Nat.ltb ?a ?b] => destruct (Nat.ltb_spec a b)
         end;
  simpl; try reflexivity; try lia.

Lemma band_body_step (n : nat) (v1 v2 : R) (M : matrix) (i : nat) :
  shape n n M -> (i + 1 < n)%nat ->
  band_body v1 v2 M i = Some (mset (mset M i (i + 1) v1) (i + 1) i v2).
Proof.
  intros HM Hi. unfold band_body.
  rewrite (setitem2_in_range n M _ _ i (i + 1) v1 HM
             (norm_index_nat n i ltac:(lia)) (norm_index_nat_succ n i Hi))
    by lia.
  simpl.
  apply (setitem2_in_range n); try lia.
  - apply shape_mset; [exact HM | lia].
  - now apply norm_index_nat_succ.
  - apply norm_index_nat. lia.
Qed.

Lemma band_loop (n : nat) (v1 v2 : R) (len : nat) :
  forall (s : nat) (M : matrix),
    shape n n M -> (s + len + 1 <= n)%nat ->
    exists M',
      foldM (band_body v1 v2) (seq s len) M = Some M'
      /\ shape n n M'
      /\ forall a b, (a < n)%nat -> (b < n)%nat ->
           entry M' a b = band_entries v1 v2 s len (entry M) a b.
Proof.
  induction len as [|len IH]; intros s M HM Hs.
  - exists M. split; [reflexivity|]. split; [exact HM|].
    intros a b _ _. unfold band_entries. bool_cases.
  - simpl. rewrite (band_body_step n) by (assumption || lia). simpl.
    set (M1 := mset (mset M s (s + 1) v1) (s + 1) s v2).
    assert (HM1 : shape n n M1).
    { unfold M1. apply shape_mset; [apply shape_mset|]; (assumption || lia). }
    destruct (IH (Datatypes.S s) M1 HM1 ltac:(lia)) as [M' [Hf [HM' He]]].
    exists M'. split; [exact Hf|]. split; [exact HM'|].
    intros a b Ha Hb. rewrite (He a b Ha Hb).
    unfold band_entries, M1.
    rewrite (entry_mset n) by (try apply shape_mset; assumption || lia).
    rewrite (entry_mset n) by (assumption || lia).
    bool_cases.
Qed.

(** The loop over [range(n-1)] followed by the two corner writes. *)
Lemma band_then_corners (n : nat) (v1 v2 w1 w2 : R) (f : nat -> nat -> R) :
  (1 <= n)%nat ->
  (M <- foldM (band_body v1 v2) (seq 0 (n - 1)) (tabulate n n f) ;;
   M <- setitem2 M 0 (-1) w1 ;;
   setitem2 M (-1) 0 w2)
  = Some (tabulate n n (fun a b =>
            if Nat.eqb a (n - 1) && Nat.eqb b 0 then w2
            else if Nat.eqb a 0 && Nat.eqb b (n - 1) then w1
            else if Nat.eqb b (a + 1) then v1
            else if Nat.eqb a (b + 1) then v2
            else f a b)).
Proof.
  intros Hn.
  destruct (band_loop n v1 v2 (n - 1) 0 (tabulate n n f)
              (shape_tabulate n n f) ltac:(lia)) as [M [Hf [HM He]]].
  rewrite Hf. simpl.
  rewrite (setitem2_in_range n M 0 (-1) 0 (n - 1) w1 HM
             (norm_index_nat n 0 ltac:(lia)) (norm_index_last n Hn))
    by lia.
  simpl.
  assert (HM1 : shape n n (mset M 0 (n - 1) w1)) by (apply shape_mset; [assumption | lia]).
  rewrite (setitem2_in_range n _ (-1) 0 (n - 1) 0 w2 HM1
             (norm_index_last n Hn) (norm_index_nat n 0 ltac:(lia)))
    by lia.
  f_equal.
  apply (tabulate_of_entries n n _ 0).
  - apply shape_mset; [assumption | lia].
  - intros a b Ha Hb.
    fold (entry (mset (mset M 0 (n - 1) w1) (n - 1) 0 w2) a b).
    rewrite (entry_mset n) by (assumption || lia).
    rewrite (entry_mset n) by (assumption || lia).
    rewrite (He a b Ha Hb). unfold band_entries.
    rewrite entry_tabulate by assumption.
    bool_cases.
Qed.

Lemma AC_stencil_entries (nx : nat) :
  (1 <= nx)%nat ->
  Discretized.AC_stencil nx = Some (tabulate nx nx (central_difference nx)).
Proof.
  intros Hn. unfold Discretized.AC_stencil.
  rewrite zeros2_tabulate.
  exact (band_then_corners nx 1 (-1) (-1) 1 (fun _ _ => 0) Hn).
Qed.

Lemma AD_stencil_entries (nx : nat) :
  (1 <= nx)%nat ->
  Discretized.AD_stencil nx = Some (tabulate nx nx (second_difference nx)).
Proof.
  intros Hn. unfold Discretized.AD_stencil.
  rewrite eye_tabulate, mmap_tabulate.
  exact (band_then_corners nx (-1) (-1) (-1) (-1) (fun i j => 2 * delta i j) Hn).
Qed.

(** ** The assembled operator *)

Lemma AS_tabulate (S : R) (nx : nat) :
  Discretized.AS S nx = tabulate nx nx (fun i j => - S * delta i j).
Proof.
  unfold Discretized.AS. now rewrite eye_tabulate, mmap_tabulate.
Qed.

Lemma AC_tabulate (C : R) (nx : nat) (dx : R) :
  (1 <= nx)%nat ->
  Discretized.AC C nx dx
  = Some (tabulate nx nx (fun i j => central_difference nx i j * C / (2 * dx))).
Proof.
  intros Hn. unfold Discretized.AC.
  rewrite (AC_stencil_entries nx Hn). simpl. now rewrite mmap_tabulate.
Qed.

Lemma AD_tabulate (D : R) (nx : nat) (dx : R) :
  (1 <= nx)%nat ->
  Discretized.AD D nx dx
  = Some (tabulate nx nx (fun i j => second_difference nx i j * D / (dx * dx))).
Proof.
  intros Hn. unfold Discretized.AD.
  rewrite (AD_stencil_entries nx Hn). simpl. now rewrite mmap_tabulate.
Qed.

Lemma A_tabulate (C D S : R) (nx : nat) (dx : R) :
  (1 <= nx)%nat ->
  Discretized.A C D S nx dx = Some (A_entries C D S nx dx).
Proof.
  intros Hn. unfold Discretized.A.
  rewrite (AC_tabulate C nx dx Hn), (AD_tabulate D nx dx Hn). simpl.
  rewrite AS_tabulate. unfold madd. rewrite !zipWith_tabulate.
  f_equal. apply tabulate_ext. intros i j _ _.
  unfold Rdiv. ring.
Qed.

Lemma A_empty_grid (C D S dx : R) : Discretized.A C D S 0 dx = None.
Proof. reflexivity. Qed.

(** For three points or more the stencils are the textbook periodic ones. *)
Lemma central_difference_periodic (n i j : nat) :
  (3 <= n)%nat -> (i < n)%nat -> (j < n)%nat ->
  central_difference n i j = central_difference_mod n i j.
Proof.
  intros Hn Hi Hj. unfold central_difference, central_difference_mod, delta.
  destruct (Nat.eq_dec i (n - 1)) as [Ei|Ei];
    destruct (Nat.eq_dec j (n - 1)) as [Aj|Aj].
  - replace ((i + 1) mod n) with 0%nat
      by (subst i; replace (n - 1 + 1)%nat with n by lia; now rewrite Nat.Div0.mod_same).
    replace ((j + 1) mod n) with 0%nat
      by (subst j; replace (n - 1 + 1)%nat with n by lia; now rewrite Nat.Div0.mod_same).
    bool_cases; lra.
  - replace ((i + 1) mod n) with 0%nat
      by (subst i; replace (n - 1 + 1)%nat with n by lia; now rewrite Nat.Div0.mod_same).
    rewrite (Nat.mod_small (j + 1) n) by lia.
    bool_cases; lra.
  - replace ((j + 1) mod n) with 0%nat
      by (subst j; replace (n - 1 + 1)%nat with n by lia; now rewrite Nat.Div0.mod_same).
    rewrite (Nat.mod_small (i + 1) n) by lia.
    bool_cases; lra.
  - rewrite (Nat.mod_small (i + 1) n), (Nat.mod_small (j + 1) n) by lia.
    bool_cases; lra.
Qed.

Lemma second_difference_periodic (n i j : nat) :
  (3 <= n)%nat -> (i < n)%nat -> (j < n)%nat ->
  second_difference n i j = second_difference_mod n i j.
Proof.
  intros Hn Hi Hj. unfold second_difference, second_difference_mod, delta.
  destruct (Nat.eq_dec i (n - 1)) as [Ei|Ei];
    destruct (Nat.eq_dec j (n - 1)) as [Aj|Aj].
  - replace ((i + 1) mod n) with 0%nat
      by (subst i; replace (n - 1 + 1)%nat with n by lia; now rewrite Nat.Div0.mod_same).
    replace ((j + 1) mod n) with 0%nat
      by (subst j; replace (n - 1 + 1)%nat with n by lia; now rewrite Nat.Div0.mod_same).
    bool_cases; lra.
  - replace ((i + 1) mod n) with 0%nat
      by (subst i; replace (n - 1 + 1)%nat with n by lia; now rewrite Nat.Div0.mod_same).
    rewrite (Nat.mod_small (j + 1) n) by lia.
    bool_cases; lra.
  - replace ((j + 1) mod n) with 0%nat
      by (subst j; replace (n - 1 + 1)%nat with n by lia; now rewrite Nat.Div0.mod_same).
    rewrite (Nat.mod_small (i + 1) n) by lia.
    bool_cases; lra.
  - rewrite (Nat.mod_small (i + 1) n), (Nat.mod_small (j + 1) n) by lia.
    bool_cases; lra.
Qed.




(** ** Symmetry of the parts and the Hermitian split *)

Lemma central_difference_antisymmetric (n i j : nat) :
  (2 <= n)%nat -> (i < n)%nat -> (j < n)%nat ->
  central_difference n j i = - central_difference n i j.
Proof.
  intros Hn Hi Hj. unfold central_difference. bool_cases; lra.
Qed.

Lemma second_difference_symmetric (n i j : nat) :
  second_difference n j i = second_difference n i j.
Proof.
  unfold second_difference, delta. bool_cases; lra.
Qed.

Lemma delta_symmetric (i j : nat) : delta j i = delta i j.
Proof. unfold delta. bool_cases. Qed.

Section SplitOfTabulate.
Variables (n : nat) (f : nat -> nat -> R).
Let a := tabulate n n f.

Lemma AH_tabulate : Discretized.AH a = tabulate n n (fun i j => f j i).
Proof. apply transpose_tabulate. Qed.

Lemma H1_tabulate :
  Discretized.H1 a = tabulate n n (fun i j => (f i j + f j i) / 2).
Proof.
  unfold Discretized.H1. rewrite AH_tabulate. unfold a, madd.
  now rewrite zipWith_tabulate, mmap_tabulate.
Qed.

Lemma H2_tabulate :
  Discretized.H2 a = tabulate n n (fun i j => (f i j - f j i) / 2).
Proof.
  unfold Discretized.H2. rewrite AH_tabulate. unfold a, msub.
  now rewrite zipWith_tabulate, mmap_tabulate.
Qed.

Lemma H1_Hermitian : Hermitian_transpose (Discretized.H1 a) = Discretized.H1 a.
Proof.
  rewrite H1_tabulate, transpose_tabulate.
  apply tabulate_ext. intros. lra.
Qed.

Lemma H2_anti_Hermitian :
  Hermitian_transpose (Discretized.H2 a) = mmap Ropp (Discretized.H2 a).
Proof.
  rewrite H2_tabulate, transpose_tabulate, mmap_tabulate.
  apply tabulate_ext. intros. lra.
Qed.

Lemma H1_plus_H2 : madd (Discretized.H1 a) (Discretized.H2 a) = a.
Proof.
  rewrite H1_tabulate, H2_tabulate. unfold madd, a.
  rewrite zipWith_tabulate.
  apply tabulate_ext. intros. lra.
Qed.
End SplitOfTabulate.

(** C6.  On a grid of two points or more: the convection array is
    antisymmetric, the diffusion and reaction arrays are symmetric (corner
    entries included), [H1] equals its conjugate transpose, [H2] equals
    minus its conjugate transpose, and [H1 + H2] is [A]. *)
Theorem operator_symmetry (C D S : R) (nx : nat) (dx : R) :
  (2 <= nx)%nat ->
  exists ac ad a : matrix,
    Discretized.AC C nx dx = Some ac
    /\ Discretized.AD D nx dx = Some ad
    /\ Discretized.A C D S nx dx = Some a
    /\ Hermitian_transpose ac = mmap Ropp ac
    /\ Hermitian_transpose ad = ad
    /\ Hermitian_transpose (Discretized.AS S nx) = Discretized.AS S nx
    /\ Hermitian_transpose (Discretized.H1 a) = Discretized.H1 a
    /\ Hermitian_transpose (Discretized.H2 a) = mmap Ropp (Discretized.H2 a)
    /\ madd (Discretized.H1 a) (Discretized.H2 a) = a.
Proof.
  intros Hn.
  eexists. eexists. eexists.
  split; [apply AC_tabulate; lia|].
  split; [apply AD_tabulate; lia|].
  split; [apply A_tabulate; lia|].
  split.
  { rewrite transpose_tabulate, mmap_tabulate.
    apply tabulate_ext. intros i j Hi Hj.
    rewrite (central_difference_antisymmetric nx i j) by assumption.
    unfold Rdiv. ring. }
  split.
  { rewrite transpose_tabulate.
    apply tabulate_ext. intros i j Hi Hj.
    now rewrite (second_difference_symmetric nx i j). }
  split.
  { rewrite AS_tabulate, transpose_tabulate.
    apply tabulate_ext. intros i j Hi Hj.
    now rewrite (delta_symmetric i j). }
  unfold A_entries.
  split; [apply H1_Hermitian|].
  split; [apply H2_anti_Hermitian|].
  apply H1_plus_H2.
Qed.

Lemma operator_symmetry_witness :
  exists ac ad a : matrix,
    Discretized.AC 4 2 1 = Some ac
    /\ Discretized.AD 1 2 1 = Some ad
    /\ Discretized.A 4 1 (-1 / 5) 2 1 = Some a
    /\ Hermitian_transpose ac = mmap Ropp ac
    /\ Hermitian_transpose ad = ad
    /\ Hermitian_transpose (Discretized.AS (-1 / 5) 2) = Discretized.AS (-1 / 5) 2
    /\ Hermitian_transpose (Discretized.H1 a) = Discretized.H1 a
    /\ Hermitian_transpose (Discretized.H2 a) = mmap Ropp (Discretized.H2 a)
    /\ madd (Discretized.H1 a) (Discretized.H2 a) = a.
Proof.
  apply (operator_symmetry 4 1 (-1 / 5) 2 1). lia.
Defined.

(** On a single point the two corner writes of [AC] land on the one entry
    and leave [+1] there, so the convection array is not antisymmetric. *)
Lemma convection_single_point :
  Discretized.AC 2 1 1 = Some [[1]].
Proof.
  unfold Discretized.AC. simpl. unfold mmap. simpl.
  do 3 f_equal. lra.
Qed.

(** ** The auxiliary profile *)

Lemma mapM_total {X Y : Type} (f : X -> option Y) (g : X -> Y) (l : list X) :
  (forall a, In a l -> f a = Some (g a)) -> mapM f l = Some (map g l).
Proof.
  induction l as [|a l IH]; intros Hf; simpl.
  - reflexivity.
  - rewrite (Hf a (or_introl eq_refl)). simpl.
    rewrite IH by (intros b Hb; apply Hf; now right).
    reflexivity.
Qed.

Lemma v_init_at_policy (wy shift alpha bzone vy : R) :
  alpha <> 0 ->
  Common.v_init_at wy shift alpha bzone vy
  = Some (AuxiliaryProfile wy shift alpha bzone vy).
Proof.
  intros Ha. unfold Common.v_init_at, AuxiliaryProfile, Common.bottom.
  destruct (Rlt_dec vy (- PI * (wy / 2 + shift - bzone))) as [Hlo|Hlo].
  { destruct (Rle_dec (- PI * (wy / 2 + shift - bzone)) vy); [lra | reflexivity]. }
  destruct (Rle_dec (- PI * (wy / 2 + shift - bzone)) vy) as [_|Hn]; [|lra].
  destruct (Rgt_dec vy (PI * (wy / 2 - shift - bzone))) as [Hhi|Hhi].
  { destruct (Rle_dec vy (PI * (wy / 2 - shift - bzone))); [lra | reflexivity]. }
  destruct (Rle_dec vy (PI * (wy / 2 - shift - bzone))) as [_|Hn]; [|lra].
  destruct (Rlt_dec vy (- PI * shift)) as [Hs|Hs]; [|reflexivity].
  destruct (Req_dec_T alpha 0) as [E|_]; [contradiction|].
  f_equal. unfold Rmax.
  destruct (Rlt_dec _ _) as [Hb|Hb]; destruct (Rle_dec _ _) as [Hc|Hc];
    try reflexivity; lra.
Qed.

(** With [alpha = 0] the second branch raises. *)
Lemma v_init_at_zero_alpha (wy shift bzone vy : R) :
  - PI * (wy / 2 + shift - bzone) <= vy <= PI * (wy / 2 - shift - bzone) ->
  vy < - PI * shift ->
  Common.v_init_at wy shift 0 bzone vy = None.
Proof.
  intros [Hlo Hhi] Hs. unfold Common.v_init_at.
  destruct (Rlt_dec _ _); [lra|].
  destruct (Rgt_dec _ _); [lra|].
  destruct (Rlt_dec _ _); [|lra].
  destruct (Req_dec_T 0 0); [reflexivity | lra].
Qed.

Lemma v_init_policy (ny : nat) (wy shift alpha bzone : R) :
  alpha <> 0 ->
  Common.v_init ny wy shift alpha bzone
  = Some (map (AuxiliaryProfile wy shift alpha bzone) (Common.y ny wy shift)).
Proof.
  intros Ha. unfold Common.v_init.
  apply mapM_total. intros vy _. now apply v_init_at_policy.
Qed.

(** C2.  For a nonzero [alpha] the loop fills [v_init] and its value at
    every axis point [vy] of [y] follows the priority rule: [0] outside
    the closed window, else the exponential floored at [bottom] when
    [vy < - pi * shift], else [exp (- vy)]. *)
Theorem v_init_follows_profile_policy (ny : nat) (wy shift alpha bzone : R) :
  alpha <> 0 ->
  Common.v_init ny wy shift alpha bzone
  = Some (map (AuxiliaryProfile wy shift alpha bzone) (Common.y ny wy shift)).
Proof.
  intros Ha. now apply v_init_policy.
Qed.

Lemma v_init_follows_profile_policy_witness :
  Common.v_init 4 8 0 10 0
  = Some (map (AuxiliaryProfile 8 0 10 0) (Common.y 4 8 0)).
Proof.
  apply (v_init_follows_profile_policy 4 8 0 10 0). lra.
Defined.

(** ** The wavenumbers *)

Lemma fftfreq_bins_length (n : nat) : length (fftfreq_bins n) = n.
Proof.
  unfold fftfreq_bins.
  rewrite length_app, !length_map, !length_seq.
  destruct n as [|n]; [reflexivity|].
  assert (H := Nat.div_mod_eq (Datatypes.S n) 2).
  assert (H2 : (Datatypes.S n mod 2 < 2)%nat) by (apply Nat.mod_upper_bound; lia).
  assert (E : ((Z.of_nat (Datatypes.S n) - 1) / 2
               = Z.of_nat ((Datatypes.S n - 1) / 2))%Z).
  { rewrite Nat2Z.inj_div. f_equal. lia. }
  rewrite E.
  assert (H3 := Nat.div_mod_eq (Datatypes.S n - 1) 2).
  assert (H4 : ((Datatypes.S n - 1) mod 2 < 2)%nat) by (apply Nat.mod_upper_bound; lia).
  lia.
Qed.

Lemma fftfreq_bins_nth (n i : nat) :
  (i < n)%nat -> nth i (fftfreq_bins n) 0%Z = FFT_bin n i.
Proof.
  intros Hi. unfold fftfreq_bins, FFT_bin.
  assert (E : Z.to_nat ((Z.of_nat n - 1) / 2 + 1) = ((n - 1) / 2 + 1)%nat).
  { replace (Z.of_nat n - 1)%Z with (Z.of_nat (n - 1)) by lia.
    assert (E2 : (Z.of_nat (n - 1) / 2 = Z.of_nat ((n - 1) / 2))%Z)
      by (rewrite Nat2Z.inj_div; reflexivity).
    rewrite E2. lia. }
  rewrite E.
  assert (Hsum : ((n - 1) / 2 + 1 + n / 2 = n)%nat).
  { assert (H := Nat.div_mod_eq n 2).
    assert (H2 : (n mod 2 < 2)%nat) by (apply Nat.mod_upper_bound; lia).
    assert (H3 := Nat.div_mod_eq (n - 1) 2).
    assert (H4 : ((n - 1) mod 2 < 2)%nat) by (apply Nat.mod_upper_bound; lia).
    lia. }
  destruct (Nat.leb_spec i ((n - 1) / 2)) as [Hle|Hgt].
  - rewrite app_nth1 by (rewrite length_map, length_seq; lia).
    rewrite nth_map_seq by lia. reflexivity.
  - rewrite app_nth2 by (rewrite length_map, length_seq; lia).
    rewrite length_map, length_seq.
    rewrite nth_map_seq by lia. lia.
Qed.

Lemma kv_length (ny : nat) (wy : R) : length (Common.kv ny wy) = ny.
Proof.
  unfold Common.kv, fftfreq. now rewrite !length_map, fftfreq_bins_length.
Qed.

Lemma kv_nth (ny : nat) (wy : R) (i : nat) :
  (i < ny)%nat ->
  nth i (Common.kv ny wy) 0 = IZR (FFT_bin ny i) * (2 / wy).
Proof.
  intros Hi. unfold Common.kv, fftfreq. rewrite map_map.
  rewrite (nth_map_in _ _ i 0%Z) by (rewrite fftfreq_bins_length; lia).
  rewrite (fftfreq_bins_nth ny i Hi).
  assert (Hn : INR ny <> 0) by (apply not_0_INR; lia).
  replace (IZR (FFT_bin ny i) * (1 / INR ny) * INR ny) with (IZR (FFT_bin ny i))
    by (field; exact Hn).
  unfold Rdiv. ring.
Qed.

(** C7.  On a grid of [ny >= 1] points there are [ny] wavenumbers and the
    one of index [i] is the signed integer bin of [i] times [2/wy]. *)
Theorem wavenumbers_are_scaled_bins (ny : nat) (wy : R) (i : nat) :
  (i < ny)%nat ->
  length (Common.kv ny wy) = ny
  /\ nth i (fftfreq_bins ny) 0%Z = FFT_bin ny i
  /\ nth i (Common.kv ny wy) 0 = IZR (FFT_bin ny i) * (2 / wy).
Proof.
  intros Hi. split; [apply kv_length|].
  split; [now apply fftfreq_bins_nth | now apply kv_nth].
Qed.

Lemma wavenumbers_are_scaled_bins_witness :
  length (Common.kv 4 8) = 4%nat
  /\ nth 3 (fftfreq_bins 4) 0%Z = FFT_bin 4 3
  /\ nth 3 (Common.kv 4 8) 0 = IZR (FFT_bin 4 3) * (2 / 8).
Proof.
  apply (wavenumbers_are_scaled_bins 4 8 3). lia.
Defined.

(** ** Normalization of the initial field *)

Lemma Rsum_squares_nonneg (u : list R) : 0 <= Rsum (map (fun a => a * a) u).
Proof.
  induction u as [|a u IH]; simpl.
  - lra.
  - assert (0 <= a * a) by nra. lra.
Qed.

Lemma Rsum_squares_pos (u : list R) :
  Exists (fun a => a <> 0) u -> 0 < Rsum (map (fun a => a * a) u).
Proof.
  induction 1 as [a u Ha | a u _ IH]; simpl.
  - assert (0 < a * a) by nra.
    assert (H0 := Rsum_squares_nonneg u). lra.
  - assert (0 <= a * a) by nra. lra.
Qed.

Lemma Rsum_map_scale (f : R -> R) (k : R) (u : list R) :
  Rsum (map (fun a => f a * k) u) = Rsum (map f u) * k.
Proof.
  induction u as [|a u IH]; simpl.
  - ring.
  - rewrite IH. ring.
Qed.

Lemma u_init_norm_pos (u : list R) :
  Exists (fun a => a <> 0) u -> 0 < Common.u_init_norm u.
Proof.
  intros Hu. unfold Common.u_init_norm.
  apply sqrt_lt_R0. now apply Rsum_squares_pos.
Qed.

Lemma u0_squares_sum (u : list R) :
  Exists (fun a => a <> 0) u ->
  Rsum (map (fun a => a * a) (Common.u0 u)) = 1.
Proof.
  intros Hu. unfold Common.u0. rewrite map_map.
  assert (Hpos := u_init_norm_pos u Hu).
  assert (Hsq : Common.u_init_norm u * Common.u_init_norm u
                = Rsum (map (fun a => a * a) u)).
  { unfold Common.u_init_norm. apply sqrt_sqrt. apply Rsum_squares_nonneg. }
  rewrite (map_ext _ (fun a => a * a * / (Common.u_init_norm u * Common.u_init_norm u))).
  - rewrite (Rsum_map_scale (fun a => a * a)). rewrite <- Hsq.
    field. lra.
  - intros a. field. lra.
Qed.

Lemma u0_length (u : list R) : length (Common.u0 u) = length u.
Proof. unfold Common.u0. apply length_map. Qed.

(** C8.  Dividing a nonzero initial field by the stored norm (the square
    root of the sum of its squared entries) gives a vector of Euclidean
    norm one. *)
Theorem normalized_field_has_unit_norm (u : list R) :
  Exists (fun a => a <> 0) u ->
  Common.u_init_norm u = norm2 u
  /\ Common.u0 u = map (fun a => a / norm2 u) u
  /\ norm2 (Common.u0 u) = 1.
Proof.
  intros Hu. split; [reflexivity|]. split; [reflexivity|].
  unfold norm2. rewrite (u0_squares_sum u Hu). apply sqrt_1.
Qed.

Lemma normalized_field_has_unit_norm_witness :
  Common.u_init_norm [3; 4] = norm2 [3; 4]
  /\ Common.u0 [3; 4] = map (fun a => a / norm2 [3; 4]) [3; 4]
  /\ norm2 (Common.u0 [3; 4]) = 1.
Proof.
  apply (normalized_field_has_unit_norm [3; 4]).
  apply Exists_cons_hd. lra.
Defined.

(** ** Complex numbers *)

Lemma complex_eq (a b : complex) : re a = re b -> im a = im b -> a = b.
Proof. destruct a, b. simpl. intros -> ->. reflexivity. Qed.

Lemma Cabs_sqr (c : complex) : Cabs c * Cabs c = re c * re c + im c * im c.
Proof. unfold Cabs. apply sqrt_sqrt. nra. Qed.

Lemma Cabs_nonneg (c : complex) : 0 <= Cabs c.
Proof. unfold Cabs. apply sqrt_pos. Qed.

Lemma Cabs_zero (c : complex) : Cabs c = 0 <-> c = C0.
Proof.
  split.
  - intros H. assert (E := Cabs_sqr c). rewrite H in E.
    apply complex_eq; simpl; nra.
  - intros ->. unfold Cabs, C0, RtoC. simpl.
    replace (0 * 0 + 0 * 0) with 0 by ring. apply sqrt_0.
Qed.

Lemma Cabs_pos (c : complex) : c <> C0 -> 0 < Cabs c.
Proof.
  intros Hc. destruct (Cabs_nonneg c) as [H|H]; [exact H|].
  exfalso. apply Hc. apply Cabs_zero. now symmetry.
Qed.

Lemma Cabs_phase_factor (c : complex) : c <> C0 -> Cabs (phase_factor c) = 1.
Proof.
  intros Hc. assert (Hp := Cabs_pos c Hc). assert (Hs := Cabs_sqr c).
  unfold phase_factor. unfold Cabs at 1. simpl.
  replace (re c / Cabs c * (re c / Cabs c) + im c / Cabs c * (im c / Cabs c))
    with 1.
  - apply sqrt_1.
  - rewrite <- (Rinv_r (Cabs c * Cabs c)) by nra.
    rewrite Hs at 1. field. lra.
Qed.

Lemma Cmul_phase_factor (a : R) (c : complex) :
  Cdivr (Cmul (RtoC a) c) (Cabs c) = Cmul (RtoC a) (phase_factor c).
Proof.
  apply complex_eq; simpl; unfold Rdiv; ring.
Qed.

Lemma Cabs_sqr_scaled (a : R) (c : complex) :
  c <> C0 ->
  Cabs (Cmul (RtoC a) (phase_factor c)) * Cabs (Cmul (RtoC a) (phase_factor c))
  = a * a.
Proof.
  intros Hc. rewrite Cabs_sqr.
  assert (Hu := Cabs_phase_factor c Hc).
  assert (Hs := Cabs_sqr (phase_factor c)). rewrite Hu in Hs.
  simpl in *. nra.
Qed.

(** ** State preparation *)

Lemma prepared_amplitudes_norm (u0 : list R) (c : complex) :
  c <> C0 ->
  Rsum (map (fun z => Cabs z * Cabs z)
            (map (fun a => Cdivr (Cmul (RtoC a) c) (Cabs c)) u0))
  = Rsum (map (fun a => a * a) u0).
Proof.
  intros Hc. rewrite map_map. f_equal.
  apply map_ext. intros a.
  rewrite Cmul_phase_factor. now apply Cabs_sqr_scaled.
Qed.

Lemma prepare_success (nq : nat) (u : list R) (c : complex) :
  Exists (fun a => a <> 0) u -> length u = (2 ^ nq)%nat -> c <> C0 ->
  prepare nq (Common.u0 u) c
  = Some (Initialize (map (fun a => Cmul (RtoC a) (phase_factor c)) (Common.u0 u))).
Proof.
  intros Hu Hl Hc. unfold prepare.
  destruct (Req_dec_T (Cabs c) 0) as [E|_].
  { exfalso. apply Hc. now apply Cabs_zero. }
  unfold initialize.
  rewrite length_map, u0_length, Hl, Nat.eqb_refl.
  rewrite (prepared_amplitudes_norm _ c Hc), (u0_squares_sum u Hu).
  destruct (Req_dec_T 1 1) as [_|N]; [|contradiction].
  do 2 f_equal. apply map_ext. intros a. apply Cmul_phase_factor.
Qed.

Lemma prepare_zero_coefficient (nq : nat) (u0 : list R) :
  prepare nq u0 C0 = None.
Proof.
  unfold prepare.
  destruct (Req_dec_T (Cabs C0) 0) as [_|N]; [reflexivity|].
  exfalso. apply N. now apply Cabs_zero.
Qed.

(** C10.  For the coefficient [c] of any bin [i] of the transform of a
    profile [v], and a nonzero initial field on the register: when [c] is
    nonzero the factor [c/|c|] has modulus one and the prepared state is
    [u0 * c/|c|], of Euclidean norm one; when [c] is zero the division by
    [|c|] fails and no state is prepared. *)
Theorem preparation_needs_nonzero_coefficient
        (nq : nat) (u v : list R) (i : nat) (c : complex) :
  Exists (fun a => a <> 0) u -> length u = (2 ^ nq)%nat ->
  nth_error (Common.fv v) i = Some c ->
  (c <> C0 ->
     Cabs (phase_factor c) = 1
     /\ exists amplitudes,
          prepare nq (Common.u0 u) c = Some (Initialize amplitudes)
          /\ amplitudes = map (fun a => Cmul (RtoC a) (phase_factor c)) (Common.u0 u)
          /\ cnorm2 amplitudes = 1)
  /\ (c = C0 -> prepare nq (Common.u0 u) c = None).
Proof.
  intros Hu Hl _. split.
  - intros Hc. split; [now apply Cabs_phase_factor|].
    eexists. split; [now apply prepare_success|]. split; [reflexivity|].
    unfold cnorm2. rewrite map_map.
    rewrite (map_ext _ (fun a => a * a)) by (intros a; now apply Cabs_sqr_scaled).
    rewrite (u0_squares_sum u Hu). apply sqrt_1.
  - intros ->. apply prepare_zero_coefficient.
Qed.

(** ** Recombination *)

Lemma Cadd_assoc (a b c : complex) : Cadd (Cadd a b) c = Cadd a (Cadd b c).
Proof. apply complex_eq; simpl; ring. Qed.

Lemma Cadd_0_l (a : complex) : Cadd C0 a = a.
Proof. apply complex_eq; simpl; ring. Qed.

Lemma list_as_map_nth {X : Type} (l : list X) (d : X) :
  l = map (fun j => nth j l d) (seq 0 (length l)).
Proof.
  apply (nth_ext _ _ d d).
  - now rewrite length_map, length_seq.
  - intros j Hj. now rewrite nth_map_seq.
Qed.

Lemma repeat_as_map {X : Type} (a : X) (n : nat) :
  repeat a n = map (fun _ => a) (seq 0 n).
Proof.
  apply (nth_ext _ _ a a).
  - now rewrite repeat_length, length_map, length_seq.
  - intros j Hj. rewrite repeat_length in Hj.
    now rewrite nth_repeat, nth_map_seq.
Qed.

Lemma map_combine_seq {X Y : Type} (f : nat -> X -> Y) (l : list X) (d : X) (s : nat) :
  map (fun '(i, a) => f i a) (combine (seq s (length l)) l)
  = map (fun i => f (s + i)%nat (nth i l d)) (seq 0 (length l)).
Proof.
  revert s. induction l as [|a l IH]; intros s; simpl.
  - reflexivity.
  - rewrite Nat.add_0_r. f_equal.
    rewrite IH. rewrite <- seq_shift, map_map.
    apply map_ext. intros i. f_equal. lia.
Qed.

Lemma phase_angle (ny : nat) (wy k : R) :
  Common.phase ny wy k
  = Cexp (mkC 0 (PI * k * (wy / 2) * 2 * (INR ny / 2 + INR Common.idx) / INR ny)).
Proof.
  unfold Common.phase. f_equal.
  apply complex_eq; simpl; unfold Rdiv; ring.
Qed.

Section RecombinationLoop.
Variables (ny : nat) (wy : R).
Variables (states : list (list complex)) (fv : list complex).
Variable nx : nat.

Let term (i : nat) (k : R) (j : nat) : complex :=
  Cmul (Cmul (nth j (nth i states []) C0) (RtoC (Cabs (nth i fv C0))))
       (Common.phase ny wy k).

Let body (soln : list complex) (p : nat * R) : option (list complex) :=
  let '(i, k) := p in
  st <- nth_error states i ;;
  c <- nth_error fv i ;;
  Common.iadd soln
    (map (fun s => Cmul (Cmul s (RtoC (Cabs c))) (Common.phase ny wy k)) st).

Lemma accumulation_loop (ps : list (nat * R)) :
  forall g : nat -> complex,
    (forall i k, In (i, k) ps ->
       (i < length states)%nat /\ (i < length fv)%nat
       /\ length (nth i states []) = nx) ->
    foldM body ps (map g (seq 0 nx))
    = Some (map (fun j =>
                   Cadd (g j) (Csum (map (fun '(i, k) => term i k j) ps)))
                (seq 0 nx)).
Proof.
  induction ps as [|[i k] ps IH]; intros g Hps.
  - simpl. f_equal. apply map_ext. intros j.
    apply complex_eq; simpl; ring.
  - destruct (Hps i k (or_introl eq_refl)) as [Hs [Hf Hl]].
    simpl.
    rewrite (nth_error_nth' states [] Hs), (nth_error_nth' fv C0 Hf). simpl.
    unfold Common.iadd.
    rewrite !length_map, length_seq, Hl, Nat.eqb_refl.
    rewrite (list_as_map_nth (nth i states []) C0) at 1.
    rewrite Hl, map_map.
    rewrite (zipWith_map_seq Cadd).
    assert (IH' := IH (fun j => Cadd (g j) (term i k j))
                     (fun i' k' Hin => Hps i' k' (or_intror Hin))).
    etransitivity; [exact IH'|].
    f_equal. apply map_ext. intros j.
    apply Cadd_assoc.
Qed.
End RecombinationLoop.

Lemma soln_sum_closed (ny : nat) (wy : R) (states : list (list complex))
      (fv : list complex) (kv : list R) (nx : nat) :
  length states = length kv -> length fv = length kv ->
  Forall (fun st => length st = nx) states ->
  Common.soln_sum ny wy states fv kv nx
  = Some (map (fun j =>
                 Csum (map (fun i =>
                             Cmul (Cmul (nth j (nth i states []) C0)
                                        (RtoC (Cabs (nth i fv C0))))
                                  (Common.phase ny wy (nth i kv 0)))
                          (seq 0 (length kv))))
              (seq 0 nx)).
Proof.
  intros Hs Hf Hst. unfold Common.soln_sum.
  rewrite (repeat_as_map C0 nx).
  rewrite (accumulation_loop ny wy states fv nx).
  - f_equal. apply map_ext. intros j. rewrite Cadd_0_l. f_equal.
    unfold enumerate.
    rewrite (map_combine_seq
               (fun i k => Cmul (Cmul (nth j (nth i states []) C0)
                                      (RtoC (Cabs (nth i fv C0))))
                                (Common.phase ny wy k)) kv 0 0).
    reflexivity.
  - intros i k Hin. unfold enumerate in Hin.
    apply in_combine_l in Hin. apply in_seq in Hin.
    split; [lia|]. split; [lia|].
    rewrite Forall_forall in Hst. apply Hst. apply nth_In. lia.
Qed.

Lemma soln_real_closed (ny : nat) (wy : R)
      (states : list (list complex)) (fv : list complex) (kv : list R)
      (u_init_norm : R) (y : list R) (nx : nat) :
  length states = length kv -> length fv = length kv ->
  Forall (fun st => length st = nx) states ->
  (ny / 2 < length y)%nat ->
  Common.soln_real ny wy states fv kv u_init_norm y nx
  = Some (ReconstructedSolution ny wy states fv kv u_init_norm y nx).
Proof.
  intros Hs Hf Hst Hy.
  unfold Common.soln_real, Common.soln.
  rewrite (soln_sum_closed ny wy states fv kv nx Hs Hf Hst). cbn [obind].
  rewrite (nth_error_nth' y 0) by (unfold Common.idx; lia). cbn [obind].
  f_equal. rewrite !map_map. unfold ReconstructedSolution.
  apply map_ext. intros j.
  rewrite (map_ext _ _ (fun i => f_equal _ (phase_angle ny wy (nth i kv 0)))).
  cbn [re im Cmul RtoC]. ring.
Qed.

(** C3.  For states aligned one to one with the frequency components, each
    of [nx] amplitudes, the script's [soln.real] is the real part of
    [sum_i state_i * |c_i| * exp(j*pi*k_i*wy/2*2*(ny/2+idx)/ny)] times the
    norm of the initial field and [exp(y[ny/2+idx])], with [idx = 0]. *)
Theorem recombination_formula (ny : nat) (wy : R)
        (states : list (list complex)) (fv : list complex) (kv : list R)
        (u_init_norm : R) (y : list R) (nx : nat) :
  length states = length kv -> length fv = length kv ->
  Forall (fun st => length st = nx) states ->
  (ny / 2 < length y)%nat ->
  Common.idx = 0%nat
  /\ Common.soln_real ny wy states fv kv u_init_norm y nx
     = Some (ReconstructedSolution ny wy states fv kv u_init_norm y nx).
Proof.
  intros Hs Hf Hst Hy. split; [reflexivity|].
  now apply soln_real_closed.
Qed.

(** ** The evolution operators *)

Lemma M_tabulate (n : nat) (f : nat -> nat -> R) (k : R) :
  Discretized.M (tabulate n n f) k
  = tabulate n n (fun i j =>
      Csub (Cmul (Cmul Cj (RtoC k)) (RtoC ((f i j + f j i) / 2)))
           (RtoC ((f i j - f j i) / 2))).
Proof.
  unfold Discretized.M. rewrite H1_tabulate, H2_tabulate.
  apply (zipWith_tabulate
           (fun h1 h2 => Csub (Cmul (Cmul Cj (RtoC k)) (RtoC h1)) (RtoC h2))).
Qed.




(** ** The spectral operator *)

Lemma fftfreq_length (n : nat) : length (fftfreq n) = n.
Proof. unfold fftfreq. now rewrite length_map, fftfreq_bins_length. Qed.

Lemma kx_length (wx : R) (nx : nat) : length (Spectral.kx wx nx) = nx.
Proof. unfold Spectral.kx. now rewrite length_map, fftfreq_length. Qed.

Lemma kx_nth (wx : R) (nx i : nat) :
  (i < nx)%nat ->
  nth i (Spectral.kx wx nx) 0 = IZR (FFT_bin nx i) * (2 * PI / Common.L wx).
Proof.
  intros Hi. unfold Spectral.kx, fftfreq. rewrite map_map.
  rewrite (nth_map_in _ _ i 0%Z) by (rewrite fftfreq_bins_length; lia).
  rewrite (fftfreq_bins_nth nx i Hi).
  assert (Hn : INR nx <> 0) by (apply not_0_INR; lia).
  replace (IZR (FFT_bin nx i) * (1 / INR nx) * INR nx) with (IZR (FFT_bin nx i))
    by (field; exact Hn).
  unfold Rdiv. ring.
Qed.

Lemma diag_tabulate (d : list R) :
  diag d = tabulate (length d) (length d)
             (fun i j => if Nat.eqb i j then nth i d 0 else 0).
Proof.
  unfold diag, enumerate, tabulate.
  apply (map_combine_seq
           (fun i a => map (fun j => if Nat.eqb i j then a else 0)
                           (seq 0 (length d))) d 0 0).
Qed.

Lemma H_tabulate (C D S wx : R) (nx : nat) (k : R) :
  (1 <= nx)%nat ->
  Spectral.H C D S wx nx k
  = tabulate nx nx (fun i j =>
      if Nat.eqb i j then
        C * (IZR (FFT_bin nx i) * (2 * PI / Common.L wx))
        + D * k * ((IZR (FFT_bin nx i) * (2 * PI / Common.L wx))
                   * (IZR (FFT_bin nx i) * (2 * PI / Common.L wx)))
        - S * k
      else 0).
Proof.
  intros Hn. unfold Spectral.H. rewrite diag_tabulate.
  rewrite length_map, kx_length.
  apply tabulate_ext. intros i j Hi Hj.
  destruct (Nat.eqb i j); [|reflexivity].
  rewrite (nth_map_in _ _ i 0) by (rewrite kx_length; lia).
  now rewrite (kx_nth wx nx i Hi).
Qed.


(** ** Algebra of the complex numbers *)

Lemma complex_ring_theory :
  ring_theory C0 C1 Cadd Cmul Csub Copp (@eq complex).
Proof.
  constructor; intros; apply complex_eq; simpl; ring.
Qed.

Add Ring complex_ring : complex_ring_theory.

Lemma Cmul_integral (a b : complex) : Cmul a b = C0 -> a = C0 \/ b = C0.
Proof.
  intros H.
  assert (Hr : re a * re b - im a * im b = 0) by exact (f_equal re H).
  assert (Hi : re a * im b + im a * re b = 0) by exact (f_equal im H).
  destruct (Req_dec (re a * re a + im a * im a) 0) as [Z|NZ].
  - left. apply complex_eq; simpl; nra.
  - right.
    assert (E1 : (re a * re a + im a * im a) * re b = 0).
    { replace ((re a * re a + im a * im a) * re b)
        with (re a * (re a * re b - im a * im b) + im a * (re a * im b + im a * re b))
        by ring.
      rewrite Hr, Hi. ring. }
    assert (E2 : (re a * re a + im a * im a) * im b = 0).
    { replace ((re a * re a + im a * im a) * im b)
        with (re a * (re a * im b + im a * re b) - im a * (re a * re b - im a * im b))
        by ring.
      rewrite Hr, Hi. ring. }
    apply Rmult_integral in E1. apply Rmult_integral in E2.
    apply complex_eq; simpl; tauto.
Qed.

Lemma Cexp_imaginary (theta : R) : Cexp (mkC 0 theta) = cis theta.
Proof. unfold Cexp, cis. simpl. rewrite exp_0. f_equal; ring. Qed.

Lemma cis_plus (a b : R) : cis (a + b) = Cmul (cis a) (cis b).
Proof.
  unfold cis, Cmul. simpl. rewrite cos_plus, sin_plus. f_equal; ring.
Qed.

Lemma cis_0 : cis 0 = C1.
Proof. unfold cis, C1, RtoC. now rewrite cos_0, sin_0. Qed.

Lemma cis_2PI_multiple (k : nat) : cis (2 * INR k * PI) = C1.
Proof.
  unfold cis, C1, RtoC.
  assert (Hc := cos_period 0 k). assert (Hs := sin_period 0 k).
  rewrite Rplus_0_l in Hc, Hs. rewrite Hc, Hs, cos_0, sin_0. reflexivity.
Qed.

Lemma cis_minus_period (x : R) (k : nat) : cis (x - 2 * INR k * PI) = cis x.
Proof.
  assert (H : Cmul (cis (x - 2 * INR k * PI)) (cis (2 * INR k * PI)) = cis x).
  { rewrite <- cis_plus. f_equal. ring. }
  rewrite cis_2PI_multiple in H. rewrite <- H. ring.
Qed.

Lemma cis_not_1 (phi : R) : - PI < phi <= PI -> phi <> 0 -> cis phi <> C1.
Proof.
  intros [Hlo Hhi] Hnz H.
  assert (Hc : cos phi = 1) by exact (f_equal re H).
  assert (Hs : sin phi = 0) by exact (f_equal im H).
  destruct (Rlt_dec phi 0) as [Hneg|Hpos].
  - assert (Hlt := sin_lt_0_var phi Hlo Hneg). lra.
  - destruct (Req_dec phi PI) as [E|NE].
    + rewrite E, cos_PI in Hc. lra.
    + assert (Hgt := sin_gt_0 phi ltac:(lra) ltac:(lra)). lra.
Qed.

(** ** Finite sums *)

Lemma Csigma_succ (n : nat) (f : nat -> complex) :
  Csigma (Datatypes.S n) f = Cadd (Csigma n f) (f n).
Proof.
  unfold Csigma. rewrite seq_S, map_app. simpl.
  induction (map f (seq 0 n)) as [|a l IH]; simpl.
  - ring.
  - rewrite IH. ring.
Qed.

Lemma Csigma_0 (f : nat -> complex) : Csigma 0 f = C0.
Proof. reflexivity. Qed.

Lemma Csigma_ext (n : nat) (f g : nat -> complex) :
  (forall i, (i < n)%nat -> f i = g i) -> Csigma n f = Csigma n g.
Proof.
  intros H. unfold Csigma. f_equal.
  apply map_ext_in. intros i Hi. apply in_seq in Hi. apply H. lia.
Qed.

Lemma Csigma_add (n : nat) (f g : nat -> complex) :
  Csigma n (fun i => Cadd (f i) (g i)) = Cadd (Csigma n f) (Csigma n g).
Proof.
  induction n as [|n IH].
  - rewrite !Csigma_0. ring.
  - rewrite !Csigma_succ, IH. ring.
Qed.

Lemma Csigma_mul_l (n : nat) (a : complex) (f : nat -> complex) :
  Csigma n (fun i => Cmul a (f i)) = Cmul a (Csigma n f).
Proof.
  induction n as [|n IH].
  - rewrite !Csigma_0. ring.
  - rewrite !Csigma_succ, IH. ring.
Qed.

Lemma Csigma_mul_r (n : nat) (a : complex) (f : nat -> complex) :
  Csigma n (fun i => Cmul (f i) a) = Cmul (Csigma n f) a.
Proof.
  induction n as [|n IH].
  - rewrite !Csigma_0. ring.
  - rewrite !Csigma_succ, IH. ring.
Qed.

Lemma Csigma_zero (n : nat) : Csigma n (fun _ => C0) = C0.
Proof.
  induction n as [|n IH].
  - reflexivity.
  - rewrite Csigma_succ, IH. ring.
Qed.

Lemma Csigma_swap (n m : nat) (f : nat -> nat -> complex) :
  Csigma n (fun i => Csigma m (fun k => f i k))
  = Csigma m (fun k => Csigma n (fun i => f i k)).
Proof.
  induction n as [|n IH].
  - rewrite Csigma_0. symmetry. apply Csigma_zero.
  - rewrite Csigma_succ, IH, <- Csigma_add.
    apply Csigma_ext. intros k _. now rewrite Csigma_succ.
Qed.

(** A sum with a single nonzero term. *)
Lemma Csigma_single (n m : nat) (f : nat -> complex) :
  (m < n)%nat -> (forall i, (i < n)%nat -> i <> m -> f i = C0) ->
  Csigma n f = f m.
Proof.
  revert m. induction n as [|n IH]; intros m Hm Hz.
  - lia.
  - rewrite Csigma_succ.
    destruct (Nat.eq_dec m n) as [->|Hne].
    + rewrite (Csigma_ext n f (fun _ => C0)) by (intros i Hi; apply Hz; lia).
      rewrite Csigma_zero. ring.
    + rewrite (IH m) by (try lia; intros i Hi Hi'; apply Hz; lia).
      rewrite (Hz n) by lia. ring.
Qed.

Lemma Cdivr_as_mul (a : complex) (x : R) : Cdivr a x = Cmul (RtoC (/ x)) a.
Proof. apply complex_eq; simpl; unfold Rdiv; ring. Qed.

(** ** Roots of unity *)

Lemma geometric_sum (phi : R) (n : nat) :
  Cmul (Csub (cis phi) C1) (Csigma n (fun i => cis (INR i * phi)))
  = Csub (cis (INR n * phi)) C1.
Proof.
  induction n as [|n IH].
  - rewrite Csigma_0. simpl. rewrite Rmult_0_l, cis_0. ring.
  - rewrite Csigma_succ.
    replace (INR (Datatypes.S n) * phi) with (phi + INR n * phi)
      by (rewrite S_INR; ring).
    rewrite cis_plus.
    transitivity (Cadd (Cmul (Csub (cis phi) C1) (Csigma n (fun i => cis (INR i * phi))))
                       (Cmul (Csub (cis phi) C1) (cis (INR n * phi)))); [ring|].
    rewrite IH. ring.
Qed.

Lemma Csigma_const_1 (n : nat) : Csigma n (fun _ => C1) = RtoC (INR n).
Proof.
  induction n as [|n IH].
  - reflexivity.
  - rewrite Csigma_succ, IH, S_INR. apply complex_eq; simpl; ring.
Qed.

(** The characters of the cyclic group of even order [2 m], evaluated
    against the midpoint: they sum to [2 m] at [k = m] and to zero
    elsewhere. *)
Lemma midpoint_orthogonality (m k : nat) :
  (1 <= m)%nat -> (k < 2 * m)%nat ->
  Csigma (2 * m) (fun i => cis (INR i * (PI - 2 * PI * INR k / INR (2 * m))))
  = if Nat.eqb k m then RtoC (INR (2 * m)) else C0.
Proof.
  intros Hm Hk.
  assert (Hm0 : 0 < INR m) by (apply lt_0_INR; lia).
  assert (HN : INR (2 * m) = 2 * INR m) by (rewrite mult_INR; simpl; ring).
  destruct (Nat.eqb_spec k m) as [->|Hne].
  - rewrite <- Csigma_const_1. apply Csigma_ext. intros i _.
    rewrite <- cis_0. f_equal. rewrite HN. field. lra.
  - set (phi := PI - 2 * PI * INR k / INR (2 * m)).
    assert (Hphi : phi = PI * (INR m - INR k) / INR m).
    { unfold phi. rewrite HN. field. lra. }
    assert (Hk0 : 0 <= INR k) by apply pos_INR.
    assert (Hk2 : INR k < 2 * INR m).
    { rewrite <- HN. apply lt_INR. exact Hk. }
    assert (Hkm : INR k <> INR m) by (intros E; apply INR_eq in E; lia).
    assert (HPI := PI_RGT_0).
    assert (Hrange : - PI < phi <= PI).
    { rewrite Hphi. split.
      - apply (Rmult_lt_reg_r (INR m)); [exact Hm0|].
        unfold Rdiv. rewrite Rmult_assoc, Rinv_l by lra. nra.
      - apply (Rmult_le_reg_r (INR m)); [exact Hm0|].
        unfold Rdiv. rewrite Rmult_assoc, Rinv_l by lra. nra. }
    assert (Hnz : phi <> 0).
    { rewrite Hphi. intros E.
      apply (f_equal (fun x => x * INR m)) in E.
      unfold Rdiv in E. rewrite Rmult_assoc, Rinv_l in E by lra. nra. }
    assert (Hz := cis_not_1 phi Hrange Hnz).
    assert (G := geometric_sum phi (2 * m)).
    assert (Hfull : cis (INR (2 * m) * phi) = C1).
    { replace (INR (2 * m) * phi) with (2 * INR m * PI - 2 * INR k * PI).
      - rewrite cis_minus_period. apply cis_2PI_multiple.
      - rewrite Hphi, HN. field. lra. }
    rewrite Hfull in G.
    replace (Csub C1 C1) with C0 in G by ring.
    apply Cmul_integral in G. destruct G as [G|G]; [|exact G].
    exfalso. apply Hz.
    transitivity (Cadd (Csub (cis phi) C1) C1); [ring|].
    rewrite G. ring.
Qed.

(** ** The forward transform and its inverse at the midpoint *)

Lemma fft_forward_length (v : list R) : length (fft_forward v) = length v.
Proof. unfold fft_forward. now rewrite length_map, length_seq. Qed.

Lemma fft_forward_nth (v : list R) (i : nat) :
  (i < length v)%nat ->
  nth i (fft_forward v) C0
  = Cdivr (Csigma (length v) (fun n =>
             Cmul (RtoC (nth n v 0))
                  (cis (- (2 * PI * INR i * INR n / INR (length v))))))
          (INR (length v)).
Proof.
  intros Hi. unfold fft_forward. rewrite nth_map_seq by exact Hi.
  f_equal. unfold Csigma, enumerate. f_equal.
  rewrite (map_combine_seq
             (fun n a => Cmul (RtoC a)
                (Cexp (mkC 0 (- (2 * PI * INR (0 + i) * INR n / INR (length v))))))
             v 0 0).
  apply map_ext. intros n. now rewrite Cexp_imaginary.
Qed.

Lemma cis_bin_even (m i : nat) :
  (i < 2 * m)%nat ->
  cis (PI * IZR (FFT_bin (2 * m) i)) = cis (INR i * PI).
Proof.
  intros Hi. unfold FFT_bin.
  destruct (Nat.leb i ((2 * m - 1) / 2)).
  - rewrite <- INR_IZR_INZ. f_equal. ring.
  - rewrite minus_IZR, <- !INR_IZR_INZ.
    replace (PI * (INR i - INR (2 * m))) with (INR i * PI - 2 * INR m * PI)
      by (rewrite mult_INR; simpl; ring).
    apply cis_minus_period.
Qed.

Lemma midpoint_inverse_transform (m : nat) (v : list R) :
  (1 <= m)%nat -> length v = (2 * m)%nat ->
  Csigma (2 * m) (fun i =>
    Cmul (nth i (fft_forward v) C0) (cis (PI * IZR (FFT_bin (2 * m) i))))
  = RtoC (nth m v 0).
Proof.
  intros Hm Hl.
  assert (HN : INR (2 * m) <> 0) by (apply not_0_INR; lia).
  rewrite (Csigma_ext _ _
             (fun i => Csigma (2 * m) (fun n =>
                Cmul (RtoC (/ INR (2 * m) * nth n v 0))
                     (cis (INR i * (PI - 2 * PI * INR n / INR (2 * m))))))).
  - rewrite Csigma_swap.
    rewrite (Csigma_ext _ _
               (fun n => Cmul (RtoC (/ INR (2 * m) * nth n v 0))
                              (if Nat.eqb n m then RtoC (INR (2 * m)) else C0))).
    + rewrite (Csigma_single (2 * m) m).
      * rewrite Nat.eqb_refl.
        apply complex_eq; cbn [re im Cmul RtoC]; field; exact HN.
      * lia.
      * intros n Hn Hne.
        destruct (Nat.eqb_spec n m); [contradiction | ring].
    + intros n Hn. rewrite Csigma_mul_l.
      now rewrite (midpoint_orthogonality m n Hm Hn).
  - intros i Hi.
    rewrite (fft_forward_nth v i) by lia.
    rewrite Hl, (cis_bin_even m i Hi), Cdivr_as_mul.
    rewrite <- Csigma_mul_l, <- Csigma_mul_r.
    apply Csigma_ext. intros n Hn.
    replace (INR i * (PI - 2 * PI * INR n / INR (2 * m)))
      with (- (2 * PI * INR i * INR n / INR (2 * m)) + INR i * PI)
      by (field; exact HN).
    rewrite cis_plus.
    replace (RtoC (/ INR (2 * m) * nth n v 0))
      with (Cmul (RtoC (/ INR (2 * m))) (RtoC (nth n v 0)))
      by (apply complex_eq; simpl; ring).
    ring.
Qed.

(** ** Evolution over a time of zero *)

Lemma repeat2_tabulate {X : Type} (a : X) (r c : nat) :
  repeat (repeat a c) r = tabulate r c (fun _ _ => a).
Proof.
  unfold tabulate.
  rewrite (repeat_as_map (repeat a c) r).
  apply map_ext. intros _. apply repeat_as_map.
Qed.

Lemma Mt_zero_time (n : nat) (f : nat -> nat -> R) (k : R) :
  Discretized.Mt (tabulate n n f) k 0 = czeros2 n n.
Proof.
  unfold Discretized.Mt, czeros2.
  rewrite M_tabulate, mmap_tabulate, repeat2_tabulate.
  apply tabulate_ext. intros i j _ _.
  apply complex_eq; simpl; ring.
Qed.

Lemma cmat_vec_identity (n : nat) (v : list complex) :
  length v = n -> cmat_vec (ceye n) v = v.
Proof.
  intros Hl. unfold cmat_vec, ceye. rewrite map_map.
  apply (nth_ext _ _ C0 C0); [now rewrite length_map, length_seq|].
  intros i Hi. rewrite length_map, length_seq in Hi.
  rewrite nth_map_seq by exact Hi. simpl Nat.add.
  rewrite (list_as_map_nth v C0) at 1. rewrite Hl.
  rewrite (zipWith_map_seq Cmul).
  fold (Csigma n (fun j => Cmul (if Nat.eqb i j then C1 else C0) (nth j v C0))).
  rewrite (Csigma_single n i).
  - rewrite Nat.eqb_refl. ring.
  - lia.
  - intros j Hj Hne. destruct (Nat.eqb_spec i j); [lia | ring].
Qed.

Lemma identity_circuit_statevector (nq : nat) (amplitudes : list complex) :
  length amplitudes = (2 ^ nq)%nat ->
  get_statevector nq [Initialize amplitudes; Barrier; UnitaryOp (ceye (2 ^ nq))]
  = amplitudes.
Proof.
  intros Hl. unfold get_statevector. cbn [fold_left step].
  now apply cmat_vec_identity.
Qed.

Lemma mapM_nth {X Y : Type} (f : X -> option Y) (l : list X) (l' : list Y)
      (d : X) (e : Y) :
  mapM f l = Some l' ->
  length l' = length l
  /\ forall i, (i < length l)%nat -> f (nth i l d) = Some (nth i l' e).
Proof.
  revert l'. induction l as [|a l IH]; intros l' H; simpl in H.
  - injection H as <-. split; [reflexivity|]. simpl. intros i Hi. lia.
  - destruct (f a) as [b|] eqn:Ha; simpl in H; [|discriminate].
    destruct (mapM f l) as [bs|] eqn:Hm; simpl in H; [|discriminate].
    injection H as <-.
    destruct (IH bs eq_refl) as [Hl Hn].
    split; [simpl; now rewrite Hl|].
    intros [|i] Hi; simpl; [exact Ha|].
    apply Hn. simpl in Hi. lia.
Qed.

Lemma y_length (ny : nat) (wy shift : R) : length (Common.y ny wy shift) = ny.
Proof. unfold Common.y, linspace. now rewrite length_map, length_seq. Qed.

Lemma y_midpoint (m : nat) (wy shift : R) :
  (1 <= m)%nat -> nth m (Common.y (2 * m) wy shift) 0 = - PI * shift.
Proof.
  intros Hm. unfold Common.y, linspace.
  rewrite nth_map_seq by lia. simpl Nat.add.
  assert (Hm0 : INR m <> 0) by (apply not_0_INR; lia).
  rewrite mult_INR. simpl INR. field. exact Hm0.
Qed.

Lemma v_init_at_midpoint (wy shift alpha bzone : R) :
  bzone <= wy / 2 ->
  Common.v_init_at wy shift alpha bzone (- PI * shift) = Some (exp (PI * shift)).
Proof.
  intros Hb. assert (HPI := PI_RGT_0). unfold Common.v_init_at.
  destruct (Rlt_dec _ _) as [H|_]; [exfalso; nra|].
  destruct (Rgt_dec _ _) as [H|_]; [exfalso; nra|].
  destruct (Rlt_dec _ _) as [H|_]; [exfalso; lra|].
  do 2 f_equal. ring.
Qed.

Lemma phase_factor_times_modulus (c : complex) :
  c <> C0 -> Cmul (phase_factor c) (RtoC (Cabs c)) = c.
Proof.
  intros Hc. assert (Hp := Cabs_pos c Hc).
  apply complex_eq; unfold phase_factor; simpl; field; lra.
Qed.

Section ZeroTime.
Variables (C D S : R) (nq nx ny m : nat) (dx wy shift alpha bzone : R).
Variables (u v : list R) (expm : cmatrix -> cmatrix).

Hypothesis register : nx = (2 ^ nq)%nat.
Hypothesis field_on_grid : length u = nx.
Hypothesis field_nonzero : Exists (fun a => a <> 0) u.
Hypothesis even_axis : ny = (2 * m)%nat.
Hypothesis axis_nonempty : (1 <= m)%nat.
Hypothesis width_nonzero : wy <> 0.
Hypothesis midpoint_in_window : bzone <= wy / 2.
Hypothesis profile : Common.v_init ny wy shift alpha bzone = Some v.
Hypothesis coefficients_nonzero : Forall (fun c => c <> C0) (Common.fv v).
Hypothesis expm_zero : expm (czeros2 nx nx) = ceye nx.

Let fv := Common.fv v.
Let amplitudes (i : nat) : list complex :=
  map (fun a => Cmul (RtoC a) (phase_factor (nth i fv C0))) (Common.u0 u).

Lemma profile_length : length v = ny.
Proof.
  destruct (mapM_nth _ _ _ 0 0 profile) as [Hl _].
  now rewrite Hl, y_length.
Qed.

Lemma fv_length : length fv = ny.
Proof. unfold fv, Common.fv. now rewrite fft_forward_length, profile_length. Qed.

Lemma fv_nonzero (i : nat) : (i < ny)%nat -> nth i fv C0 <> C0.
Proof.
  intros Hi. pose proof coefficients_nonzero as H.
  rewrite Forall_forall in H. apply H.
  apply nth_In. fold fv. now rewrite fv_length.
Qed.

Lemma profile_midpoint : nth m v 0 = exp (PI * shift).
Proof.
  destruct (mapM_nth _ _ _ 0 0 profile) as [_ Hn].
  assert (Hm : (m < length (Common.y ny wy shift))%nat)
    by (rewrite y_length; lia).
  specialize (Hn m Hm).
  rewrite even_axis, (y_midpoint m wy shift axis_nonempty) in Hn.
  rewrite (v_init_at_midpoint wy shift alpha bzone midpoint_in_window) in Hn.
  now injection Hn as <-.
Qed.

Lemma state_zero_time (i : nat) (k : R) :
  (i < ny)%nat ->
  Discretized.state nq u expm (A_entries C D S nx dx) fv 0 i k
  = Some (amplitudes i).
Proof.
  intros Hi. unfold Discretized.state.
  rewrite (nth_error_nth' fv C0) by (rewrite fv_length; exact Hi).
  cbn [obind]. unfold Discretized.qc.
  rewrite (prepare_success nq u (nth i fv C0) field_nonzero
             (eq_trans field_on_grid register) (fv_nonzero i Hi)).
  cbn [obind append app]. unfold Discretized.U, A_entries.
  rewrite Mt_zero_time, expm_zero, register.
  rewrite identity_circuit_statevector; [reflexivity|].
  now rewrite length_map, u0_length, field_on_grid.
Qed.

Lemma states_zero_time :
  Discretized.states nq ny wy u expm (A_entries C D S nx dx) fv 0
  = Some (map amplitudes (seq 0 ny)).
Proof.
  unfold Discretized.states.
  rewrite (mapM_total _ (fun p : nat * R => amplitudes (fst p))).
  - f_equal. unfold enumerate.
    rewrite (map_ext _ (fun '(i, _) => amplitudes i)) by (now intros [i k]).
    rewrite (map_combine_seq (fun i _ => amplitudes i) (Common.kv ny wy) 0 0).
    now rewrite kv_length.
  - intros [i k] Hin. unfold enumerate in Hin.
    apply in_combine_l in Hin. apply in_seq in Hin.
    rewrite kv_length in Hin. apply state_zero_time. simpl. lia.
Qed.

Lemma recombined_entry (j : nat) :
  (j < nx)%nat ->
  Csigma ny (fun i =>
    Cmul (Cmul (nth j (nth i (map amplitudes (seq 0 ny)) []) C0)
               (RtoC (Cabs (nth i fv C0))))
         (Cexp (mkC 0 (PI * nth i (Common.kv ny wy) 0 * (wy / 2) * 2
                       * (INR ny / 2 + INR Common.idx) / INR ny))))
  = Cmul (RtoC (nth j (Common.u0 u) 0)) (RtoC (exp (PI * shift))).
Proof.
  intros Hj.
  assert (Hny : INR ny <> 0) by (apply not_0_INR; lia).
  rewrite <- profile_midpoint.
  rewrite <- (midpoint_inverse_transform m v axis_nonempty)
    by (rewrite profile_length; exact even_axis).
  rewrite <- Csigma_mul_l, <- even_axis.
  apply Csigma_ext. intros i Hi.
  rewrite nth_map_seq by exact Hi. simpl Nat.add. unfold amplitudes.
  rewrite (nth_map_in _ _ j 0) by (rewrite u0_length, field_on_grid; exact Hj).
  rewrite (kv_nth ny wy i Hi), Cexp_imaginary.
  replace (PI * (IZR (FFT_bin ny i) * (2 / wy)) * (wy / 2) * 2
           * (INR ny / 2 + INR Common.idx) / INR ny)
    with (PI * IZR (FFT_bin ny i))
    by (unfold Common.idx; simpl INR; field; split; assumption).
  change (fft_forward v) with fv.
  assert (Hc := phase_factor_times_modulus (nth i fv C0) (fv_nonzero i Hi)).
  transitivity (Cmul (RtoC (nth j (Common.u0 u) 0))
                  (Cmul (Cmul (phase_factor (nth i fv C0))
                              (RtoC (Cabs (nth i fv C0))))
                        (cis (PI * IZR (FFT_bin ny i))))); [ring|].
  now rewrite Hc.
Qed.

Lemma reconstruction_zero_time :
  ReconstructedSolution ny wy (map amplitudes (seq 0 ny)) fv (Common.kv ny wy)
    (Common.u_init_norm u) (Common.y ny wy shift) nx
  = u.
Proof.
  unfold ReconstructedSolution.
  apply (nth_ext _ _ 0 0);
    [now rewrite length_map, length_seq, field_on_grid|].
  intros j Hj. rewrite length_map, length_seq in Hj.
  rewrite nth_map_seq by exact Hj. rewrite Nat.add_0_l.
  rewrite kv_length.
  fold (Csigma ny (fun i =>
    Cmul (Cmul (nth j (nth i (map amplitudes (seq 0 ny)) []) C0)
               (RtoC (Cabs (nth i fv C0))))
         (Cexp (mkC 0 (PI * nth i (Common.kv ny wy) 0 * (wy / 2) * 2
                       * (INR ny / 2 + INR Common.idx) / INR ny))))).
  rewrite (recombined_entry j) by lia.
  replace (ny / 2 + Common.idx)%nat with m.
  2:{ unfold Common.idx. rewrite even_axis, Nat.add_0_r, Nat.mul_comm.
      now rewrite Nat.div_mul by lia. }
  rewrite even_axis, (y_midpoint m wy shift axis_nonempty).
  unfold Common.u0.
  rewrite (nth_map_in _ _ j 0) by (rewrite field_on_grid; lia).
  assert (Hpos := u_init_norm_pos u field_nonzero).
  cbn [re im Cmul RtoC].
  replace (- PI * shift) with (- (PI * shift)) by ring.
  rewrite exp_Ropp.
  assert (He := exp_pos (PI * shift)).
  field. split; lra.
Qed.

Lemma column_zero_time :
  Discretized.column nq nx ny wy shift u expm (A_entries C D S nx dx) v 0
  = Some u.
Proof.
  unfold Discretized.column. fold fv.
  rewrite states_zero_time. cbn [obind].
  rewrite soln_real_closed.
  - now rewrite reconstruction_zero_time.
  - now rewrite length_map, length_seq, kv_length.
  - now rewrite fv_length, kv_length.
  - apply Forall_forall. intros st Hin.
    apply in_map_iff in Hin. destruct Hin as [i [<- _]].
    unfold amplitudes. now rewrite length_map, u0_length.
  - rewrite y_length, even_axis, Nat.mul_comm, Nat.div_mul by lia. lia.
Qed.
End ZeroTime.

Lemma time_starts_at_zero : nth 0 Discretized.time 1 = 0.
Proof.
  unfold Discretized.time, linspace_closed. cbn [seq map nth].
  simpl INR at 1. ring.
Qed.

(** C9.  With the noiseless backend, at the first time sample [t = 0], on
    an even auxiliary grid whose midpoint lies in the window of the
    profile, with no zero coefficient, a nonzero field on the register and
    [expm] of the zero array being the identity: the profile value times
    [exp(y[ny/2])] is one (each factor is one for [shift = 0]), every
    evolution operator is the identity, every evolved state is its
    prepared state [u0 * c_i/|c_i|], and the column of [results] for that
    time is the initial field itself. *)
Theorem zero_time_reconstructs_initial_field
        (C D S wx : R) (nq nx ny m : nat) (wy shift alpha bzone : R)
        (u v : list R) (expm : cmatrix -> cmatrix) :
  nx = (2 ^ nq)%nat -> length u = nx -> Exists (fun a => a <> 0) u ->
  ny = (2 * m)%nat -> (1 <= m)%nat ->
  wy <> 0 -> bzone <= wy / 2 ->
  Common.v_init ny wy shift alpha bzone = Some v ->
  Forall (fun c => c <> C0) (Common.fv v) ->
  expm (czeros2 nx nx) = ceye nx ->
  nth 0 Discretized.time 1 = 0
  /\ nth (ny / 2) v 0 * exp (nth (ny / 2) (Common.y ny wy shift) 0) = 1
  /\ (shift = 0 ->
      nth (ny / 2) v 0 = 1 /\ exp (nth (ny / 2) (Common.y ny wy shift) 0) = 1)
  /\ exists a : matrix,
       Discretized.A C D S nx (Discretized.dx wx nx) = Some a
       /\ (forall k, Discretized.U expm a k 0 = ceye nx)
       /\ (forall i k, (i < ny)%nat ->
             Discretized.state nq u expm a (Common.fv v) 0 i k
             = Some (map (fun x => Cmul (RtoC x)
                                     (phase_factor (nth i (Common.fv v) C0)))
                         (Common.u0 u)))
       /\ Discretized.column nq nx ny wy shift u expm a v 0 = Some u
       /\ (forall columns,
             Discretized.results C D S wx nq nx ny wy shift alpha bzone u expm
             = Some columns ->
             nth 0 columns [] = u).
Proof.
  intros Hnx Hu Hnz Hny Hm Hwy Hbz Hv Hc Hexp.
  assert (H1 : (1 <= nx)%nat).
  { rewrite Hnx. assert (H := Nat.pow_nonzero 2 nq). lia. }
  assert (Hcol : Discretized.column nq nx ny wy shift u expm
                   (A_entries C D S nx (Discretized.dx wx nx)) v 0 = Some u).
  { eapply column_zero_time; eassumption. }
  assert (Hmid : (ny / 2 = m)%nat).
  { rewrite Hny, Nat.mul_comm. apply Nat.div_mul. lia. }
  assert (Hvm : nth m v 0 = exp (PI * shift)).
  { eapply profile_midpoint; eassumption. }
  assert (Hym : nth m (Common.y ny wy shift) 0 = - (PI * shift)).
  { rewrite Hny, (y_midpoint m wy shift Hm). ring. }
  split; [apply time_starts_at_zero|].
  rewrite Hmid, Hvm, Hym.
  split.
  { rewrite exp_Ropp. apply Rinv_r. apply Rgt_not_eq, exp_pos. }
  split.
  { intros ->. rewrite Rmult_0_r, Ropp_0. split; apply exp_0. }
  exists (A_entries C D S nx (Discretized.dx wx nx)).
  split; [now apply A_tabulate|].
  split.
  { intros k. unfold Discretized.U, A_entries. now rewrite Mt_zero_time. }
  split.
  { intros i k Hi. eapply state_zero_time; eassumption. }
  split; [exact Hcol|].
  intros columns Hres. unfold Discretized.results in Hres.
  rewrite Hv in Hres. cbn [obind] in Hres.
  rewrite (A_tabulate C D S nx _ H1) in Hres. cbn [obind] in Hres.
  destruct (mapM_nth _ _ _ 1 [] Hres) as [_ Hn].
  assert (H0 : (0 < length Discretized.time)%nat) by (simpl; lia).
  specialize (Hn 0%nat H0).
  rewrite time_starts_at_zero, Hcol in Hn.
  now injection Hn as <-.
Qed.

(** ** The reference parameters on a two-point auxiliary grid *)

Lemma two_point_transform (a0 a1 : R) :
  fft_forward [a0; a1] = [mkC ((a0 + a1) / 2) 0; mkC ((a0 - a1) / 2) 0].
Proof.
  unfold fft_forward, enumerate. cbn [length seq map combine].
  rewrite !Cexp_imaginary.
  replace (- (2 * PI * INR 0 * INR 0 / INR 2)) with 0 by (simpl; field).
  replace (- (2 * PI * INR 0 * INR 1 / INR 2)) with 0 by (simpl; field).
  replace (- (2 * PI * INR 1 * INR 0 / INR 2)) with 0 by (simpl; field).
  replace (- (2 * PI * INR 1 * INR 1 / INR 2)) with (- PI) by (simpl; field).
  unfold cis. rewrite cos_neg, sin_neg, cos_PI, sin_PI, cos_0, sin_0.
  cbn [Csum fold_right].
  f_equal; [|f_equal]; apply complex_eq; simpl; field.
Qed.

Lemma reference_axis : Common.y 2 8 0 = [- (4 * PI); 0].
Proof.
  unfold Common.y, linspace. cbn [seq map].
  f_equal; [|f_equal]; simpl; field.
Qed.

Lemma exp_negative_below_1 (x : R) : x < 0 -> 0 < exp x < 1.
Proof.
  intros Hx. split; [apply exp_pos|].
  rewrite <- exp_0. now apply exp_increasing.
Qed.

Lemma reference_profile_left :
  0 < AuxiliaryProfile 8 0 10 0 (- (4 * PI)) < 1.
Proof.
  assert (HPI := PI_RGT_0). unfold AuxiliaryProfile.
  destruct (Rle_dec _ _) as [_|N]; [|exfalso; lra].
  destruct (Rle_dec _ _) as [_|N]; [|exfalso; lra].
  destruct (Rlt_dec _ _) as [_|N]; [|exfalso; lra].
  apply Rmax_case; apply exp_negative_below_1; lra.
Qed.

Lemma reference_profile_midpoint : AuxiliaryProfile 8 0 10 0 0 = 1.
Proof.
  assert (HPI := PI_RGT_0). unfold AuxiliaryProfile.
  destruct (Rle_dec _ _) as [_|N]; [|exfalso; lra].
  destruct (Rle_dec _ _) as [_|N]; [|exfalso; lra].
  destruct (Rlt_dec _ _) as [H|_]; [exfalso; lra|].
  rewrite Ropp_0. apply exp_0.
Qed.

Lemma reference_coefficients_nonzero :
  Forall (fun c => c <> C0)
         (Common.fv (map (AuxiliaryProfile 8 0 10 0) (Common.y 2 8 0))).
Proof.
  rewrite reference_axis. cbn [map]. unfold Common.fv.
  rewrite two_point_transform, reference_profile_midpoint.
  assert (H := reference_profile_left).
  repeat constructor; intros E; apply (f_equal re) in E; simpl in E; lra.
Qed.


(** ** Instances at concrete inputs *)

Lemma recombination_formula_witness :
  Common.idx = 0%nat
  /\ Common.soln_real 2 8 [[C1]; [Cj]] [C1; Cj] (Common.kv 2 8) 5
       (Common.y 2 8 0) 1
     = Some (ReconstructedSolution 2 8 [[C1]; [Cj]] [C1; Cj] (Common.kv 2 8) 5
               (Common.y 2 8 0) 1).
Proof.
  apply (recombination_formula 2 8 [[C1]; [Cj]] [C1; Cj] (Common.kv 2 8) 5
           (Common.y 2 8 0) 1).
  - now rewrite kv_length.
  - now rewrite kv_length.
  - repeat constructor.
  - rewrite y_length. simpl. lia.
Defined.



Lemma preparation_needs_nonzero_coefficient_witness :
  let c := nth 0 (Common.fv [1; 0]) C0 in
  (c <> C0 ->
     Cabs (phase_factor c) = 1
     /\ exists amplitudes,
          prepare 1 (Common.u0 [3; 4]) c = Some (Initialize amplitudes)
          /\ amplitudes
             = map (fun a => Cmul (RtoC a) (phase_factor c)) (Common.u0 [3; 4])
          /\ cnorm2 amplitudes = 1)
  /\ (c = C0 -> prepare 1 (Common.u0 [3; 4]) c = None).
Proof.
  intros c.
  apply (preparation_needs_nonzero_coefficient 1 [3; 4] [1; 0] 0 c).
  - apply Exists_cons_hd. lra.
  - reflexivity.
  - reflexivity.
Defined.

Lemma zero_time_reconstructs_initial_field_witness :
  nth 0 Discretized.time 1 = 0
  /\ nth (2 / 2) (map (AuxiliaryProfile 8 0 10 0) (Common.y 2 8 0)) 0
     * exp (nth (2 / 2) (Common.y 2 8 0) 0) = 1
  /\ (0 = 0 ->
      nth (2 / 2) (map (AuxiliaryProfile 8 0 10 0) (Common.y 2 8 0)) 0 = 1
      /\ exp (nth (2 / 2) (Common.y 2 8 0) 0) = 1)
  /\ exists a : matrix,
       Discretized.A 4 1 (-1 / 5) 2 (Discretized.dx 2 2) = Some a
       /\ (forall k, Discretized.U (fun _ => ceye 2) a k 0 = ceye 2)
       /\ (forall i k, (i < 2)%nat ->
             Discretized.state 1 [3; 4] (fun _ => ceye 2) a
               (Common.fv (map (AuxiliaryProfile 8 0 10 0) (Common.y 2 8 0)))
               0 i k
             = Some (map (fun x =>
                            Cmul (RtoC x)
                              (phase_factor
                                 (nth i (Common.fv (map (AuxiliaryProfile 8 0 10 0)
                                                        (Common.y 2 8 0))) C0)))
                         (Common.u0 [3; 4])))
       /\ Discretized.column 1 2 2 8 0 [3; 4] (fun _ => ceye 2) a
            (map (AuxiliaryProfile 8 0 10 0) (Common.y 2 8 0)) 0
          = Some [3; 4]
       /\ (forall columns,
             Discretized.results 4 1 (-1 / 5) 2 1 2 2 8 0 10 0 [3; 4]
               (fun _ => ceye 2)
             = Some columns ->
             nth 0 columns [] = [3; 4]).
Proof.
  apply (zero_time_reconstructs_initial_field
           4 1 (-1 / 5) 2 1 2 2 1 8 0 10 0 [3; 4]
           (map (AuxiliaryProfile 8 0 10 0) (Common.y 2 8 0))
           (fun _ => ceye 2)).
  - reflexivity.
  - reflexivity.
  - apply Exists_cons_hd. lra.
  - reflexivity.
  - lia.
  - lra.
  - lra.
  - apply v_init_policy. lra.
  - exact reference_coefficients_nonzero.
  - reflexivity.
Defined.

(** A zero coefficient is reachable: with a buffer zone wider than half
    the axis every point is outside the window, the profile and its
    transform vanish, and the script stops at the first preparation. *)
Lemma zero_profile_stops_the_script (expm : cmatrix -> cmatrix) :
  Common.v_init 2 8 0 10 5 = Some [0; 0]
  /\ Common.fv [0; 0] = [C0; C0]
  /\ Discretized.results 4 1 (-1 / 5) 2 1 2 2 8 0 10 5 [3; 4] expm = None.
Proof.
  assert (HPI := PI_RGT_0).
  assert (Hv : Common.v_init 2 8 0 10 5 = Some [0; 0]).
  { unfold Common.v_init. rewrite reference_axis. cbn [mapM].
    unfold Common.v_init_at.
    destruct (Rlt_dec (- (4 * PI)) _) as [_|N]; [|exfalso; lra].
    destruct (Rlt_dec 0 _) as [_|N]; [|exfalso; lra].
    reflexivity. }
  assert (Hf : Common.fv [0; 0] = [C0; C0]).
  { unfold Common.fv. rewrite two_point_transform.
    f_equal; [|f_equal]; apply complex_eq; simpl; field. }
  split; [exact Hv|]. split; [exact Hf|].
  unfold Discretized.results. rewrite Hv. cbn [obind].
  rewrite A_tabulate by lia. cbn [obind].
  unfold Discretized.time, linspace_closed. cbn [seq map mapM].
  unfold Discretized.column at 1. rewrite Hf.
  unfold Discretized.states, enumerate.
  assert (Hk : exists k0 k1, Common.kv 2 8 = [k0; k1]).
  { assert (Hb : fftfreq_bins 2 = [0; -1]%Z) by reflexivity.
    unfold Common.kv, fftfreq. rewrite Hb. cbn [map]. eauto. }
  destruct Hk as [k0 [k1 ->]]. cbn [length seq combine mapM].
  unfold Discretized.state at 1. cbn [nth_error obind].
  unfold Discretized.qc. now rewrite prepare_zero_coefficient.
Qed.

(** ** Small grids, evaluated *)

Example AC_stencil_three_points :
  Discretized.AC_stencil 3 = Some [[0; 1; -1]; [-1; 0; 1]; [1; -1; 0]].
Proof. reflexivity. Qed.

Example AC_stencil_two_points :
  Discretized.AC_stencil 2 = Some [[0; -1]; [1; 0]].
Proof. reflexivity. Qed.

Example AC_stencil_no_point : Discretized.AC_stencil 0 = None.
Proof. reflexivity. Qed.

Example fftfreq_bins_five : fftfreq_bins 5 = [0; 1; 2; -2; -1]%Z.
Proof. reflexivity. Qed.

Example fftfreq_bins_four : fftfreq_bins 4 = [0; 1; -2; -1]%Z.
Proof. reflexivity. Qed.

Example norm_index_examples :
  norm_index 4 (-1) = Some 3%nat /\ norm_index 4 4 = None
  /\ norm_index 4 (-5) = None /\ norm_index 4 0 = Some 0%nat.
Proof. repeat split; reflexivity. Qed.

(** * Further properties of the scripts *)

(** ** Sums of reals *)

Lemma Rsum_app (l l' : list R) : Rsum (l ++ l') = Rsum l + Rsum l'.
Proof.
  induction l as [|a l IH]; simpl.
  - ring.
  - rewrite IH. ring.
Qed.

Lemma Rsum_map_plus {X : Type} (f g : X -> R) (l : list X) :
  Rsum (map (fun a => f a + g a) l) = Rsum (map f l) + Rsum (map g l).
Proof.
  induction l as [|a l IH]; simpl.
  - ring.
  - rewrite IH. ring.
Qed.

Lemma Rsum_map_scale_l {X : Type} (k : R) (f : X -> R) (l : list X) :
  Rsum (map (fun a => k * f a) l) = k * Rsum (map f l).
Proof.
  induction l as [|a l IH]; simpl.
  - ring.
  - rewrite IH. ring.
Qed.

Lemma Rsum_indicator (n j0 : nat) :
  Rsum (map (fun j => if Nat.eqb j j0 then 1 else 0) (seq 0 n))
  = if Nat.ltb j0 n then 1 else 0.
Proof.
  induction n as [|n IH].
  - reflexivity.
  - rewrite seq_S, map_app, Rsum_app, IH. simpl.
    destruct (Nat.ltb_spec j0 n); destruct (Nat.ltb_spec j0 (Datatypes.S n));
      destruct (Nat.eqb_spec n j0); try lia; ring.
Qed.

Lemma nth_tabulate_row {X : Type} (r c : nat) (f : nat -> nat -> X) (i : nat) :
  (i < r)%nat -> nth i (tabulate r c f) [] = map (fun j => f i j) (seq 0 c).
Proof.
  intros Hi. unfold tabulate.
  rewrite (nth_map_seq (fun i => map (fun j => f i j) (seq 0 c)) 0 r i []) by exact Hi.
  reflexivity.
Qed.

Lemma centry_tabulate (r c : nat) (f : nat -> nat -> complex) (i j : nat) :
  (i < r)%nat -> (j < c)%nat -> centry (tabulate r c f) i j = f i j.
Proof. intros Hi Hj. unfold centry. now apply nth_tabulate. Qed.

(** ** The finite-difference operator, continued *)

(** X1.  The operator is assembled exactly on the nonempty grids, and is
    then an array of [nx] rows of [nx] entries. *)
Theorem operator_assembled_iff_grid_nonempty (C D S : R) (nx : nat) (dx : R) :
  (Discretized.A C D S nx dx = None <-> nx = 0%nat)
  /\ (forall a, Discretized.A C D S nx dx = Some a -> shape nx nx a).
Proof.
  destruct nx as [|n].
  - split; [split; reflexivity|]. intros a H. discriminate.
  - assert (E := A_tabulate C D S (Datatypes.S n) dx ltac:(lia)).
    split.
    + split; [rewrite E; discriminate | lia].
    + intros a Ha. rewrite E in Ha. injection Ha as <-.
      apply shape_tabulate.
Qed.

(** X2.  On three points or more the two stencils are circulant: the
    entry at [(i, j)] is given by the neighbours of [i] modulo [nx]. *)
Theorem stencils_are_periodic (nx : nat) :
  (3 <= nx)%nat ->
  Discretized.AC_stencil nx = Some (tabulate nx nx (central_difference_mod nx))
  /\ Discretized.AD_stencil nx = Some (tabulate nx nx (second_difference_mod nx)).
Proof.
  intros Hn. split.
  - rewrite AC_stencil_entries by lia. f_equal.
    apply tabulate_ext. intros i j Hi Hj. now apply central_difference_periodic.
  - rewrite AD_stencil_entries by lia. f_equal.
    apply tabulate_ext. intros i j Hi Hj. now apply second_difference_periodic.
Qed.

Lemma stencils_are_periodic_witness :
  Discretized.AC_stencil 3 = Some (tabulate 3 3 (central_difference_mod 3))
  /\ Discretized.AD_stencil 3 = Some (tabulate 3 3 (second_difference_mod 3)).
Proof. apply (stencils_are_periodic 3). lia. Defined.

(** On two points the corner writes overwrite the band, and the
    convection stencil is not the circulant one (which vanishes). *)
Lemma two_point_stencil_not_periodic :
  Discretized.AC_stencil 2 <> Some (tabulate 2 2 (central_difference_mod 2)).
Proof.
  rewrite AC_stencil_entries by lia. intros H.
  assert (E : tabulate 2 2 (central_difference 2)
              = tabulate 2 2 (central_difference_mod 2)) by congruence.
  apply (f_equal (fun M => entry M 0 1)) in E.
  rewrite !entry_tabulate in E by lia.
  unfold central_difference, central_difference_mod, delta in E. simpl in E.
  lra.
Qed.

Lemma central_difference_neighbours (n i j : nat) :
  (3 <= n)%nat -> (i < n)%nat -> (j < n)%nat ->
  central_difference n i j
  = (if Nat.eqb j (ring_next n i) then 1 else 0)
    - (if Nat.eqb j (ring_prev n i) then 1 else 0).
Proof.
  intros Hn Hi Hj. unfold central_difference, ring_next, ring_prev.
  bool_cases; lra.
Qed.

Lemma second_difference_neighbours (n i j : nat) :
  (3 <= n)%nat -> (i < n)%nat -> (j < n)%nat ->
  second_difference n i j
  = 2 * (if Nat.eqb j i then 1 else 0)
    - (if Nat.eqb j (ring_next n i) then 1 else 0)
    - (if Nat.eqb j (ring_prev n i) then 1 else 0).
Proof.
  intros Hn Hi Hj. unfold second_difference, delta, ring_next, ring_prev.
  bool_cases; lra.
Qed.

Lemma ring_next_bound (n i : nat) : (3 <= n)%nat -> (i < n)%nat -> (ring_next n i < n)%nat.
Proof. intros Hn Hi. unfold ring_next. destruct (Nat.eqb_spec i (n - 1)); lia. Qed.

Lemma ring_prev_bound (n i : nat) : (3 <= n)%nat -> (i < n)%nat -> (ring_prev n i < n)%nat.
Proof. intros Hn Hi. unfold ring_prev. destruct (Nat.eqb_spec i 0); lia. Qed.

Lemma A_row_sum (C D S : R) (nx : nat) (dx : R) (i : nat) :
  (3 <= nx)%nat -> (i < nx)%nat ->
  Rsum (nth i (A_entries C D S nx dx) []) = - S.
Proof.
  intros Hn Hi. unfold A_entries. rewrite nth_tabulate_row by exact Hi.
  rewrite (map_ext_in _
             (fun j => (C / (2 * dx) - D / (dx * dx))
                         * (if Nat.eqb j (ring_next nx i) then 1 else 0)
                       + ((- (C / (2 * dx)) - D / (dx * dx))
                            * (if Nat.eqb j (ring_prev nx i) then 1 else 0)
                          + (2 * (D / (dx * dx)) - S)
                              * (if Nat.eqb j i then 1 else 0)))).
  - rewrite !Rsum_map_plus, !Rsum_map_scale_l, !Rsum_indicator.
    assert (H1 := ring_next_bound nx i Hn Hi).
    assert (H2 := ring_prev_bound nx i Hn Hi).
    destruct (Nat.ltb_spec (ring_next nx i) nx); [|lia].
    destruct (Nat.ltb_spec (ring_prev nx i) nx); [|lia].
    destruct (Nat.ltb_spec i nx); [|lia].
    ring.
  - intros j Hj. apply in_seq in Hj.
    rewrite (central_difference_neighbours nx i j) by lia.
    rewrite (second_difference_neighbours nx i j) by lia.
    unfold delta. rewrite (Nat.eqb_sym i j). ring.
Qed.

(** X3.  On three points or more every row of [A] sums to [- S]:
    convection and diffusion annihilate the constant fields, only the
    reaction term acts on them. *)
Theorem operator_rows_sum_to_minus_S (C D S : R) (nx : nat) (dx : R) :
  (3 <= nx)%nat ->
  exists a, Discretized.A C D S nx dx = Some a
            /\ forall i, (i < nx)%nat -> Rsum (nth i a []) = - S.
Proof.
  intros Hn. exists (A_entries C D S nx dx).
  split; [apply A_tabulate; lia|].
  intros i Hi. now apply A_row_sum.
Qed.

Lemma operator_rows_sum_to_minus_S_witness :
  exists a, Discretized.A 4 1 (-1 / 5) 4 1 = Some a
            /\ forall i, (i < 4)%nat -> Rsum (nth i a []) = - (-1 / 5).
Proof. apply (operator_rows_sum_to_minus_S 4 1 (-1 / 5) 4 1). lia. Defined.

(** X4.  On two points or more the split separates the physics: the
    Hermitian part [H1] is diffusion plus reaction, the anti-Hermitian
    part [H2] is the convection array. *)
Theorem split_separates_convection (C D S : R) (nx : nat) (dx : R) :
  (2 <= nx)%nat ->
  exists ac ad a : matrix,
    Discretized.AC C nx dx = Some ac
    /\ Discretized.AD D nx dx = Some ad
    /\ Discretized.A C D S nx dx = Some a
    /\ Discretized.H1 a = madd ad (Discretized.AS S nx)
    /\ Discretized.H2 a = ac.
Proof.
  intros Hn. eexists. eexists. eexists.
  split; [apply AC_tabulate; lia|].
  split; [apply AD_tabulate; lia|].
  split; [apply A_tabulate; lia|].
  unfold A_entries. rewrite H1_tabulate, H2_tabulate, AS_tabulate.
  unfold madd. rewrite zipWith_tabulate.
  split; apply tabulate_ext; intros i j Hi Hj;
    rewrite (central_difference_antisymmetric nx i j) by assumption;
    rewrite (second_difference_symmetric nx i j), (delta_symmetric i j);
    unfold Rdiv; lra.
Qed.

Lemma split_separates_convection_witness :
  exists ac ad a : matrix,
    Discretized.AC 4 2 1 = Some ac
    /\ Discretized.AD 1 2 1 = Some ad
    /\ Discretized.A 4 1 (-1 / 5) 2 1 = Some a
    /\ Discretized.H1 a = madd ad (Discretized.AS (-1 / 5) 2)
    /\ Discretized.H2 a = ac.
Proof. apply (split_separates_convection 4 1 (-1 / 5) 2 1). lia. Defined.

(** ** The generators are anti-Hermitian *)

Lemma Mt_tabulate (n : nat) (f : nat -> nat -> R) (k t : R) :
  Discretized.Mt (tabulate n n f) k t
  = tabulate n n (fun i j =>
      Cmul (Csub (Cmul (Cmul Cj (RtoC k)) (RtoC ((f i j + f j i) / 2)))
                 (RtoC ((f i j - f j i) / 2)))
           (RtoC t)).
Proof.
  unfold Discretized.Mt. now rewrite M_tabulate, mmap_tabulate.
Qed.

(** X5.  For every real wavenumber [k] and time [t] the argument [M*t]
    of [expm] in the finite-difference script is a square array equal to
    minus its conjugate transpose, the condition under which a matrix
    exponential is unitary. *)
Theorem generator_is_anti_Hermitian (C D S : R) (nx : nat) (dx k t : R) :
  (1 <= nx)%nat ->
  exists a,
    Discretized.A C D S nx dx = Some a
    /\ shape nx nx (Discretized.Mt a k t)
    /\ forall i j, (i < nx)%nat -> (j < nx)%nat ->
         centry (Discretized.Mt a k t) j i
         = Copp (Cconj (centry (Discretized.Mt a k t) i j)).
Proof.
  intros Hn. exists (A_entries C D S nx dx).
  split; [now apply A_tabulate|].
  unfold A_entries. rewrite Mt_tabulate.
  split; [apply shape_tabulate|].
  intros i j Hi Hj. rewrite !centry_tabulate by assumption.
  apply complex_eq; simpl; lra.
Qed.

Lemma generator_is_anti_Hermitian_witness :
  exists a,
    Discretized.A 4 1 (-1 / 5) 2 1 = Some a
    /\ shape 2 2 (Discretized.Mt a (1 / 4) (1 / 10))
    /\ forall i j, (i < 2)%nat -> (j < 2)%nat ->
         centry (Discretized.Mt a (1 / 4) (1 / 10)) j i
         = Copp (Cconj (centry (Discretized.Mt a (1 / 4) (1 / 10)) i j)).
Proof.
  apply (generator_is_anti_Hermitian 4 1 (-1 / 5) 2 1 (1 / 4) (1 / 10)). lia.
Defined.

(** X6.  In the spectral script the argument [1.j*H*time] of [expm] is a
    square array that vanishes off the diagonal, is purely imaginary on
    it, and equals minus its conjugate transpose. *)
Theorem spectral_generator_is_anti_Hermitian
        (C D S wx : R) (nx : nat) (time k : R) :
  (1 <= nx)%nat ->
  shape nx nx (Spectral.Ht C D S wx nx time k)
  /\ forall i j, (i < nx)%nat -> (j < nx)%nat ->
       (i <> j -> centry (Spectral.Ht C D S wx nx time k) i j = C0)
       /\ re (centry (Spectral.Ht C D S wx nx time k) i i) = 0
       /\ centry (Spectral.Ht C D S wx nx time k) j i
          = Copp (Cconj (centry (Spectral.Ht C D S wx nx time k) i j)).
Proof.
  intros Hn. unfold Spectral.Ht.
  rewrite (H_tabulate C D S wx nx k Hn), mmap_tabulate.
  split; [apply shape_tabulate|].
  intros i j Hi Hj. rewrite !centry_tabulate by assumption.
  split; [|split].
  - intros Hne. destruct (Nat.eqb_spec i j); [contradiction|].
    apply complex_eq; simpl; ring.
  - rewrite Nat.eqb_refl. simpl. ring.
  - rewrite (Nat.eqb_sym j i).
    destruct (Nat.eqb_spec i j) as [->|Hne]; apply complex_eq; simpl; ring.
Qed.

Lemma spectral_generator_is_anti_Hermitian_witness :
  shape 2 2 (Spectral.Ht 4 1 (-1 / 5) 2 2 (3 / 10) (1 / 4))
  /\ forall i j, (i < 2)%nat -> (j < 2)%nat ->
       (i <> j -> centry (Spectral.Ht 4 1 (-1 / 5) 2 2 (3 / 10) (1 / 4)) i j = C0)
       /\ re (centry (Spectral.Ht 4 1 (-1 / 5) 2 2 (3 / 10) (1 / 4)) i i) = 0
       /\ centry (Spectral.Ht 4 1 (-1 / 5) 2 2 (3 / 10) (1 / 4)) j i
          = Copp (Cconj (centry (Spectral.Ht 4 1 (-1 / 5) 2 2 (3 / 10) (1 / 4)) i j)).
Proof.
  apply (spectral_generator_is_anti_Hermitian 4 1 (-1 / 5) 2 2 (3 / 10) (1 / 4)).
  lia.
Defined.

(** ** Bounds on the auxiliary profile *)

Lemma exp_monotone (a b : R) : a <= b -> exp a <= exp b.
Proof.
  intros [H| ->]; [left; now apply exp_increasing | right; reflexivity].
Qed.

Lemma profile_value_bounds (wy shift alpha bzone vy : R) :
  0 < alpha -> 0 <= wy -> 0 <= bzone ->
  AuxiliaryProfile wy shift alpha bzone vy = 0
  \/ Common.bottom wy shift <= AuxiliaryProfile wy shift alpha bzone vy
     <= exp (PI * shift).
Proof.
  intros Ha Hwy Hb. assert (HPI := PI_RGT_0).
  unfold AuxiliaryProfile, Common.bottom.
  destruct (Rle_dec _ _) as [Hlo|_]; [|now left].
  destruct (Rle_dec _ _) as [Hhi|_]; [|now left].
  right. destruct (Rlt_dec _ _) as [Hs|Hs].
  - split; [apply Rmax_r|].
    apply Rmax_lub; apply exp_monotone.
    + replace (alpha * (vy + shift * (1 + 1 / alpha) * PI))
        with (alpha * (vy + PI * shift) + PI * shift) by (field; lra).
      assert (alpha * (vy + PI * shift) <= 0) by nra. lra.
    + nra.
  - split; apply exp_monotone; nra.
Qed.

(** X7.  For a positive [alpha], a nonnegative width and a nonnegative
    buffer zone, the loop fills [v_init] with [ny] values each of which is
    either zero (outside the window) or lies between the floor [bottom]
    and the peak [exp(pi*shift)]. *)
Theorem profile_between_floor_and_peak (ny : nat) (wy shift alpha bzone : R) :
  0 < alpha -> 0 <= wy -> 0 <= bzone ->
  exists v,
    Common.v_init ny wy shift alpha bzone = Some v
    /\ length v = ny
    /\ Forall (fun a => a = 0 \/ Common.bottom wy shift <= a <= exp (PI * shift)) v.
Proof.
  intros Ha Hwy Hb.
  exists (map (AuxiliaryProfile wy shift alpha bzone) (Common.y ny wy shift)).
  split; [apply v_init_policy; lra|].
  split; [now rewrite length_map, y_length|].
  apply Forall_forall. intros a Hin.
  apply in_map_iff in Hin. destruct Hin as [vy [<- _]].
  now apply profile_value_bounds.
Qed.

Lemma profile_between_floor_and_peak_witness :
  exists v,
    Common.v_init 4 8 0 10 0 = Some v
    /\ length v = 4%nat
    /\ Forall (fun a => a = 0 \/ Common.bottom 8 0 <= a <= exp (PI * 0)) v.
Proof. apply (profile_between_floor_and_peak 4 8 0 10 0); lra. Defined.

Lemma y_range (ny : nat) (wy shift vy : R) :
  0 < wy -> In vy (Common.y ny wy shift) ->
  - PI * (wy / 2 + shift) <= vy < PI * (wy / 2 - shift).
Proof.
  intros Hwy Hin. assert (HPI := PI_RGT_0).
  unfold Common.y, linspace in Hin.
  apply in_map_iff in Hin. destruct Hin as [i [<- Hi]]. apply in_seq in Hi.
  assert (Hn : 0 < INR ny) by (apply lt_0_INR; lia).
  assert (Hi0 : 0 <= INR i) by apply pos_INR.
  assert (Hin : INR i < INR ny) by (apply lt_INR; lia).
  replace (PI * (wy / 2 - shift) - - PI * (wy / 2 + shift)) with (PI * wy) by field.
  assert (Hq : 0 <= INR i * (PI * wy / INR ny) < PI * wy).
  { replace (INR i * (PI * wy / INR ny)) with (PI * wy * (INR i / INR ny))
      by (field; lra).
    assert (Hr : 0 <= INR i / INR ny < 1).
    { split.
      - apply Rmult_le_pos; [exact Hi0 | left; now apply Rinv_0_lt_compat].
      - apply (Rmult_lt_reg_r (INR ny)); [exact Hn|].
        unfold Rdiv. rewrite Rmult_assoc, Rinv_l by lra. lra. }
    assert (0 < PI * wy) by nra. nra. }
  lra.
Qed.

Lemma profile_on_axis_above_floor (wy shift alpha bzone vy : R) :
  bzone <= 0 ->
  - PI * (wy / 2 + shift) <= vy < PI * (wy / 2 - shift) ->
  Common.bottom wy shift <= AuxiliaryProfile wy shift alpha bzone vy.
Proof.
  intros Hb [Hlo Hhi]. assert (HPI := PI_RGT_0).
  unfold AuxiliaryProfile, Common.bottom.
  destruct (Rle_dec _ _) as [_|N]; [|exfalso; apply N; nra].
  destruct (Rle_dec _ _) as [_|N]; [|exfalso; apply N; nra].
  destruct (Rlt_dec _ _) as [Hs|Hs].
  - apply Rmax_r.
  - apply exp_monotone. lra.
Qed.

Lemma v_init_above_floor (ny : nat) (wy shift alpha bzone : R) :
  0 < wy -> bzone <= 0 -> alpha <> 0 ->
  exists v,
    Common.v_init ny wy shift alpha bzone = Some v
    /\ length v = ny
    /\ 0 < Common.bottom wy shift
    /\ Forall (fun a => Common.bottom wy shift <= a) v.
Proof.
  intros Hwy Hb Ha.
  exists (map (AuxiliaryProfile wy shift alpha bzone) (Common.y ny wy shift)).
  split; [now apply v_init_policy|].
  split; [now rewrite length_map, y_length|].
  split; [apply exp_pos|].
  apply Forall_forall. intros a Hin.
  apply in_map_iff in Hin. destruct Hin as [vy [<- Hvy]].
  apply profile_on_axis_above_floor; [exact Hb|].
  now apply (y_range ny).
Qed.

(** X8.  With a positive width and no buffer zone ([bzone <= 0]) the
    window contains the whole axis: the first branch of the loop never
    fires and every entry of [v_init] is at least [bottom], which is
    positive. *)
Theorem profile_positive_without_buffer_zone
        (ny : nat) (wy shift alpha bzone : R) :
  0 < wy -> bzone <= 0 -> alpha <> 0 ->
  exists v,
    Common.v_init ny wy shift alpha bzone = Some v
    /\ length v = ny
    /\ 0 < Common.bottom wy shift
    /\ Forall (fun a => Common.bottom wy shift <= a) v.
Proof.
  intros Hwy Hb Ha. now apply v_init_above_floor.
Qed.

Lemma profile_positive_without_buffer_zone_witness :
  exists v,
    Common.v_init 4 8 0 10 0 = Some v
    /\ length v = 4%nat
    /\ 0 < Common.bottom 8 0
    /\ Forall (fun a => Common.bottom 8 0 <= a) v.
Proof. apply (profile_positive_without_buffer_zone 4 8 0 10 0); lra. Defined.

(** ** The zeroth coefficient and the empty window *)

Lemma Csigma_RtoC (n : nat) (f : nat -> R) :
  Csigma n (fun i => RtoC (f i)) = RtoC (Rsum (map f (seq 0 n))).
Proof.
  induction n as [|n IH].
  - reflexivity.
  - rewrite Csigma_succ, IH, seq_S, map_app, Rsum_app.
    apply complex_eq; simpl; ring.
Qed.

Lemma fv_zeroth (v : list R) :
  (0 < length v)%nat ->
  nth 0 (Common.fv v) C0 = RtoC (Rsum v / INR (length v)).
Proof.
  intros Hl. unfold Common.fv. rewrite (fft_forward_nth v 0 Hl).
  rewrite (Csigma_ext _ _ (fun n => RtoC (nth n v 0))).
  - rewrite Csigma_RtoC, <- (list_as_map_nth v 0).
    apply complex_eq; simpl; unfold Rdiv; ring.
  - intros n _.
    replace (- (2 * PI * INR 0 * INR n / INR (length v))) with 0
      by (simpl; unfold Rdiv; ring).
    rewrite cis_0. apply complex_eq; simpl; ring.
Qed.

Lemma Rsum_lower_bound (b : R) (v : list R) :
  Forall (fun a => b <= a) v -> INR (length v) * b <= Rsum v.
Proof.
  induction 1 as [|a v Ha _ IH].
  - simpl. lra.
  - change (length (a :: v)) with (Datatypes.S (length v)).
    rewrite S_INR. simpl Rsum. lra.
Qed.

(** X9.  The coefficient of bin [0] is the average of the profile; with a
    positive width and no buffer zone it is a real number not below
    [bottom], hence nonzero: the state of bin [0] can always be
    prepared. *)
Theorem zeroth_coefficient_is_positive_mean
        (nq ny : nat) (wy shift alpha bzone : R) (u : list R) :
  0 < wy -> bzone <= 0 -> alpha <> 0 -> (1 <= ny)%nat ->
  Exists (fun a => a <> 0) u -> length u = (2 ^ nq)%nat ->
  exists v,
    Common.v_init ny wy shift alpha bzone = Some v
    /\ nth 0 (Common.fv v) C0 = RtoC (Rsum v / INR ny)
    /\ Common.bottom wy shift <= Rsum v / INR ny
    /\ prepare nq (Common.u0 u) (nth 0 (Common.fv v) C0) <> None.
Proof.
  intros Hwy Hb Ha Hny Hu Hl.
  destruct (v_init_above_floor ny wy shift alpha bzone Hwy Hb Ha)
    as [v [Hv [Hlen [Hpos Hall]]]].
  exists v. split; [exact Hv|].
  assert (Hn : 0 < INR ny) by (apply lt_0_INR; lia).
  assert (Hz : nth 0 (Common.fv v) C0 = RtoC (Rsum v / INR ny)).
  { rewrite fv_zeroth by lia. now rewrite Hlen. }
  assert (Hm : Common.bottom wy shift <= Rsum v / INR ny).
  { assert (Hs := Rsum_lower_bound _ _ Hall). rewrite Hlen in Hs.
    apply (Rmult_le_reg_r (INR ny)); [exact Hn|].
    unfold Rdiv. rewrite Rmult_assoc, Rinv_l by lra. lra. }
  split; [exact Hz|]. split; [exact Hm|].
  rewrite prepare_success; [discriminate | exact Hu | exact Hl |].
  rewrite Hz. intros E. apply (f_equal re) in E. simpl in E. lra.
Qed.

Lemma zeroth_coefficient_is_positive_mean_witness :
  exists v,
    Common.v_init 4 8 0 10 0 = Some v
    /\ nth 0 (Common.fv v) C0 = RtoC (Rsum v / INR 4)
    /\ Common.bottom 8 0 <= Rsum v / INR 4
    /\ prepare 1 (Common.u0 [3; 4]) (nth 0 (Common.fv v) C0) <> None.
Proof.
  apply (zeroth_coefficient_is_positive_mean 1 4 8 0 10 0 [3; 4]);
    try lra; try lia; try reflexivity.
  apply Exists_cons_hd. lra.
Defined.

Lemma v_init_at_empty_window (wy shift alpha bzone vy : R) :
  wy / 2 < bzone -> Common.v_init_at wy shift alpha bzone vy = Some 0.
Proof.
  intros Hb. assert (HPI := PI_RGT_0). unfold Common.v_init_at.
  destruct (Rlt_dec _ _) as [_|Hlo]; [reflexivity|].
  destruct (Rgt_dec _ _) as [_|Hhi]; [reflexivity|].
  exfalso. nra.
Qed.

Lemma fft_forward_zero (n : nat) : fft_forward (repeat 0 n) = repeat C0 n.
Proof.
  apply (nth_ext _ _ C0 C0).
  - now rewrite fft_forward_length, !repeat_length.
  - intros i Hi. rewrite fft_forward_length in Hi.
    rewrite (fft_forward_nth _ i Hi), nth_repeat.
    rewrite (Csigma_ext _ _ (fun _ => C0)).
    + rewrite Csigma_zero. apply complex_eq; simpl; unfold Rdiv; ring.
    + intros k _. rewrite nth_repeat. apply complex_eq; simpl; ring.
Qed.

(** X10.  A buffer zone wider than half the axis empties the window:
    every entry of [v_init] and every coefficient is zero (whatever
    [alpha]), the first state preparation fails and the finite-difference
    script produces no results. *)
Theorem empty_window_stops_the_script
        (C D S wx : R) (nq nx ny : nat) (wy shift alpha bzone : R)
        (u : list R) (expm : cmatrix -> cmatrix) :
  wy / 2 < bzone -> (1 <= ny)%nat ->
  Common.v_init ny wy shift alpha bzone = Some (repeat 0 ny)
  /\ Common.fv (repeat 0 ny) = repeat C0 ny
  /\ Discretized.results C D S wx nq nx ny wy shift alpha bzone u expm = None.
Proof.
  intros Hb Hny.
  assert (Hv : Common.v_init ny wy shift alpha bzone = Some (repeat 0 ny)).
  { unfold Common.v_init.
    rewrite (mapM_total _ (fun _ => 0))
      by (intros vy _; now apply v_init_at_empty_window).
    f_equal. rewrite <- (y_length ny wy shift) at 2.
    unfold Common.y, linspace. rewrite map_map, length_map, length_seq.
    symmetry. apply repeat_as_map. }
  assert (Hf : Common.fv (repeat 0 ny) = repeat C0 ny) by apply fft_forward_zero.
  split; [exact Hv|]. split; [exact Hf|].
  unfold Discretized.results. rewrite Hv. cbn [obind].
  destruct (Discretized.A C D S nx (Discretized.dx wx nx)) as [a|]; [|reflexivity].
  cbn [obind]. unfold Discretized.time, linspace_closed. cbn [seq map mapM].
  unfold Discretized.column at 1. rewrite Hf.
  unfold Discretized.states, enumerate.
  destruct (Common.kv ny wy) as [|k0 ks] eqn:Hk.
  { assert (Hlen := kv_length ny wy). rewrite Hk in Hlen. simpl in Hlen. lia. }
  cbn [length seq combine mapM].
  unfold Discretized.state at 1.
  destruct ny as [|n]; [lia|]. cbn [repeat nth_error obind].
  unfold Discretized.qc. now rewrite prepare_zero_coefficient.
Qed.

Lemma empty_window_stops_the_script_witness :
  Common.v_init 4 8 0 10 5 = Some (repeat 0 4)
  /\ Common.fv (repeat 0 4) = repeat C0 4
  /\ Discretized.results 4 1 (-1 / 5) 2 1 2 4 8 0 10 5 [3; 4] (fun X => X) = None.
Proof.
  apply (empty_window_stops_the_script 4 1 (-1 / 5) 2 1 2 4 8 0 10 5 [3; 4]
           (fun X => X)).
  - lra.
  - lia.
Defined.

(** ** Shapes and failures of the recombination *)

Lemma foldM_fails {X Y : Type} (f : Y -> X -> option Y) (P : Y -> Prop)
      (l : list X) (a : X) :
  (forall b x b', P b -> f b x = Some b' -> P b') ->
  In a l -> (forall b, P b -> f b a = None) ->
  forall b, P b -> foldM f l b = None.
Proof.
  intros Hpres. induction l as [|x l IH]; intros Hin Hfail b Hb.
  - destruct Hin.
  - simpl. destruct (f b x) as [b'|] eqn:E; [|reflexivity]. simpl.
    destruct Hin as [->|Hin].
    + rewrite (Hfail b Hb) in E. discriminate.
    + apply IH; try assumption. exact (Hpres b x b' Hb E).
Qed.

Lemma foldM_invariant {X Y : Type} (f : Y -> X -> option Y) (P : Y -> Prop)
      (l : list X) :
  (forall b x b', P b -> f b x = Some b' -> P b') ->
  forall b r, P b -> foldM f l b = Some r -> P r.
Proof.
  intros Hpres. induction l as [|x l IH]; intros b r Hb H; simpl in H.
  - now injection H as <-.
  - destruct (f b x) as [b'|] eqn:E; simpl in H; [|discriminate].
    exact (IH b' r (Hpres b x b' Hb E) H).
Qed.

Lemma zipWith_length {X Y W : Type} (g : X -> Y -> W) (l : list X) (l' : list Y) :
  length l = length l' -> length (zipWith g l l') = length l.
Proof.
  revert l'. induction l as [|a l IH]; intros [|b l'] H; simpl in *;
    try reflexivity; try discriminate.
  f_equal. apply IH. lia.
Qed.

Lemma iadd_length (soln term s : list complex) :
  Common.iadd soln term = Some s -> length s = length soln.
Proof.
  unfold Common.iadd. intros H.
  destruct (Nat.eqb_spec (length term) (length soln)) as [E|E].
  - injection H as <-. apply zipWith_length. now symmetry.
  - destruct term as [|a [|b t]]; try discriminate.
    injection H as <-. apply length_map.
Qed.

Lemma in_enumerate {X : Type} (l : list X) (i : nat) (d : X) :
  (i < length l)%nat -> In (i, nth i l d) (enumerate l).
Proof.
  intros Hi. unfold enumerate.
  assert (E : nth i (combine (seq 0 (length l)) l) (0%nat, d) = (i, nth i l d)).
  { rewrite combine_nth by apply length_seq. now rewrite seq_nth. }
  rewrite <- E. apply nth_In.
  rewrite length_combine, length_seq. lia.
Qed.

Section RecombinationFailures.
Variables (ny : nat) (wy : R).
Variables (states : list (list complex)) (fv : list complex) (kv : list R).
Variable nx : nat.

Let body (soln : list complex) (p : nat * R) : option (list complex) :=
  let '(i, k) := p in
  st <- nth_error states i ;;
  c <- nth_error fv i ;;
  Common.iadd soln
    (map (fun s => Cmul (Cmul s (RtoC (Cabs c))) (Common.phase ny wy k)) st).

Lemma body_keeps_length (b : list complex) (p : nat * R) (b' : list complex) :
  length b = nx -> body b p = Some b' -> length b' = nx.
Proof.
  intros Hb H. destruct p as [i k]. unfold body in H.
  destruct (nth_error states i) as [st|]; [|discriminate].
  destruct (nth_error fv i) as [c|]; [|discriminate].
  simpl in H. rewrite (iadd_length _ _ _ H). exact Hb.
Qed.

Lemma soln_sum_length (s : list complex) :
  Common.soln_sum ny wy states fv kv nx = Some s -> length s = nx.
Proof.
  intros H. unfold Common.soln_sum in H.
  apply (foldM_invariant body (fun b => length b = nx) (enumerate kv)
           body_keeps_length (repeat C0 nx) s).
  - apply repeat_length.
  - exact H.
Qed.

Lemma soln_sum_misaligned :
  (length states < length kv)%nat \/ (length fv < length kv)%nat ->
  Common.soln_sum ny wy states fv kv nx = None.
Proof.
  intros H. unfold Common.soln_sum.
  destruct (Nat.lt_ge_cases (length states) (length kv)) as [Hs|Hs].
  - apply (foldM_fails body (fun b => length b = nx) (enumerate kv)
             (length states, nth (length states) kv 0) body_keeps_length).
    + now apply in_enumerate.
    + intros b _. unfold body.
      now rewrite (proj2 (nth_error_None states (length states)) (le_n _)).
    + apply repeat_length.
  - assert (Hf : (length fv < length kv)%nat) by (destruct H; [lia | assumption]).
    apply (foldM_fails body (fun b => length b = nx) (enumerate kv)
             (length fv, nth (length fv) kv 0) body_keeps_length).
    + now apply in_enumerate.
    + intros b _. unfold body.
      destruct (nth_error states (length fv)); [|reflexivity]. simpl.
      now rewrite (proj2 (nth_error_None fv (length fv)) (le_n _)).
    + apply repeat_length.
Qed.

Lemma soln_sum_wrong_shape (i : nat) (st : list complex) :
  (i < length kv)%nat -> (i < length fv)%nat ->
  nth_error states i = Some st ->
  length st <> nx -> length st <> 1%nat ->
  Common.soln_sum ny wy states fv kv nx = None.
Proof.
  intros Hk Hf Hst Hnx H1. unfold Common.soln_sum.
  apply (foldM_fails body (fun b => length b = nx) (enumerate kv)
           (i, nth i kv 0) body_keeps_length).
  - now apply in_enumerate.
  - intros b Hb. unfold body. rewrite Hst. simpl.
    rewrite (nth_error_nth' fv C0 Hf). simpl.
    unfold Common.iadd. rewrite length_map, Hb.
    destruct (Nat.eqb_spec (length st) nx) as [E|_]; [contradiction|].
    destruct st as [|a [|b' t]]; simpl in *; try reflexivity. lia.
  - apply repeat_length.
Qed.
End RecombinationFailures.

(** X11.  When there are fewer states or fewer coefficients than
    wavenumbers, the accumulation loop indexes out of range and no
    solution is produced. *)
Theorem recombination_fails_when_misaligned
        (ny : nat) (wy : R) (states : list (list complex)) (fv : list complex)
        (kv : list R) (u_init_norm : R) (y : list R) (nx : nat) :
  (length states < length kv)%nat \/ (length fv < length kv)%nat ->
  Common.soln_sum ny wy states fv kv nx = None
  /\ Common.soln ny wy states fv kv u_init_norm y nx = None
  /\ Common.soln_real ny wy states fv kv u_init_norm y nx = None.
Proof.
  intros H.
  assert (E := soln_sum_misaligned ny wy states fv kv nx H).
  unfold Common.soln_real, Common.soln. rewrite E. now repeat split.
Qed.

Lemma recombination_fails_when_misaligned_witness :
  Common.soln_sum 2 8 [[C1]] [C1; Cj] [0; 1 / 4] 1 = None
  /\ Common.soln 2 8 [[C1]] [C1; Cj] [0; 1 / 4] 5 [0; 0] 1 = None
  /\ Common.soln_real 2 8 [[C1]] [C1; Cj] [0; 1 / 4] 5 [0; 0] 1 = None.
Proof.
  apply (recombination_fails_when_misaligned 2 8 [[C1]] [C1; Cj] [0; 1 / 4] 5
           [0; 0] 1).
  left. simpl. lia.
Defined.

(** X12.  A state whose number of amplitudes is neither [nx] nor one
    cannot be added to [soln], and no solution is produced. *)
Theorem recombination_fails_on_wrong_shape
        (ny : nat) (wy : R) (states : list (list complex)) (fv : list complex)
        (kv : list R) (u_init_norm : R) (y : list R) (nx i : nat)
        (st : list complex) :
  (i < length kv)%nat -> (i < length fv)%nat ->
  nth_error states i = Some st ->
  length st <> nx -> length st <> 1%nat ->
  Common.soln_sum ny wy states fv kv nx = None
  /\ Common.soln_real ny wy states fv kv u_init_norm y nx = None.
Proof.
  intros Hk Hf Hst Hnx H1.
  assert (E := soln_sum_wrong_shape ny wy states fv kv nx i st Hk Hf Hst Hnx H1).
  unfold Common.soln_real, Common.soln. rewrite E. now split.
Qed.

Lemma recombination_fails_on_wrong_shape_witness :
  Common.soln_sum 2 8 [[C1; C1]; [C1; C1; C1]] [C1; Cj] [0; 1 / 4] 2 = None
  /\ Common.soln_real 2 8 [[C1; C1]; [C1; C1; C1]] [C1; Cj] [0; 1 / 4] 5
       [0; 0] 2 = None.
Proof.
  apply (recombination_fails_on_wrong_shape 2 8 [[C1; C1]; [C1; C1; C1]]
           [C1; Cj] [0; 1 / 4] 5 [0; 0] 2 1 [C1; C1; C1]).
  - simpl. lia.
  - simpl. lia.
  - reflexivity.
  - simpl. lia.
  - simpl. lia.
Defined.

Lemma soln_real_length (ny : nat) (wy : R) (states : list (list complex))
      (fv : list complex) (kv : list R) (u_init_norm : R) (y : list R)
      (nx : nat) (r : list R) :
  Common.soln_real ny wy states fv kv u_init_norm y nx = Some r ->
  length r = nx.
Proof.
  unfold Common.soln_real, Common.soln. intros H.
  destruct (Common.soln_sum ny wy states fv kv nx) as [s|] eqn:E;
    [|discriminate].
  cbn [obind] in H.
  destruct (nth_error y (ny / 2 + Common.idx)) as [ymid|]; [|discriminate].
  cbn [obind] in H. injection H as <-.
  rewrite !length_map. exact (soln_sum_length ny wy states fv kv nx s E).
Qed.

(** X13.  Whatever the states are, a solution that is produced has [nx]
    entries; and when the finite-difference script produces [results],
    there is one column per time sample, eleven in all, each of [nx]
    entries. *)
Theorem results_have_the_shape_of_the_grid
        (C D S wx : R) (nq nx ny : nat) (wy shift alpha bzone : R)
        (u : list R) (expm : cmatrix -> cmatrix) (columns : list (list R)) :
  Discretized.results C D S wx nq nx ny wy shift alpha bzone u expm
  = Some columns ->
  length columns = 11%nat
  /\ length columns = length Discretized.time
  /\ Forall (fun column => length column = nx) columns.
Proof.
  intros H. unfold Discretized.results in H.
  destruct (Common.v_init ny wy shift alpha bzone) as [v|]; [|discriminate].
  destruct (Discretized.A C D S nx (Discretized.dx wx nx)) as [a|]; [|discriminate].
  cbn [obind] in H.
  destruct (mapM_nth _ _ _ 0 [] H) as [Hl Hn].
  split; [rewrite Hl; reflexivity|]. split; [exact Hl|].
  apply Forall_forall. intros column Hin.
  destruct (In_nth _ _ [] Hin) as [i [Hi <-]].
  rewrite Hl in Hi. specialize (Hn i Hi).
  unfold Discretized.column in Hn.
  destruct (Discretized.states nq ny wy u expm a (Common.fv v) (nth i Discretized.time 0))
    as [sts|]; [|discriminate].
  cbn [obind] in Hn. exact (soln_real_length _ _ _ _ _ _ _ _ _ Hn).
Qed.

(** A run that succeeds: with an [expm] that returns the identity, every
    column is the initial field. *)
Lemma results_with_identity_evolution :
  Discretized.results 4 1 (-1 / 5) 2 1 2 2 8 0 10 0 [3; 4] (fun _ => ceye 2)
  = Some (repeat [3; 4] 11).
Proof.
  unfold Discretized.results.
  rewrite (v_init_policy 2 8 0 10 0) by lra. cbn [obind].
  rewrite A_tabulate by lia. cbn [obind].
  rewrite (mapM_total _ (fun _ => [3; 4])).
  - reflexivity.
  - intros t _.
    change (Discretized.column 1 2 2 8 0 [3; 4] (fun _ => ceye 2)
              (A_entries 4 1 (-1 / 5) 2 (Discretized.dx 2 2))
              (map (AuxiliaryProfile 8 0 10 0) (Common.y 2 8 0)) 0
            = Some [3; 4]).
    apply (column_zero_time 4 1 (-1 / 5) 1 2 2 1 (Discretized.dx 2 2) 8 0 10 0
             [3; 4] (map (AuxiliaryProfile 8 0 10 0) (Common.y 2 8 0))
             (fun _ => ceye 2)).
    + reflexivity.
    + reflexivity.
    + apply Exists_cons_hd. lra.
    + reflexivity.
    + lia.
    + lra.
    + lra.
    + apply v_init_policy. lra.
    + exact reference_coefficients_nonzero.
    + reflexivity.
Qed.

Lemma results_have_the_shape_of_the_grid_witness :
  length (repeat [3; 4] 11) = 11%nat
  /\ length (repeat [3; 4] 11) = length Discretized.time
  /\ Forall (fun column => length column = 2%nat) (repeat [3; 4] 11).
Proof.
  apply (results_have_the_shape_of_the_grid 4 1 (-1 / 5) 2 1 2 2 8 0 10 0
           [3; 4] (fun _ => ceye 2) (repeat [3; 4] 11)).
  exact results_with_identity_evolution.
Defined.

(** ** The initial field and the reference solution *)

Lemma zipWith_map_same {X Y Z W : Type} (g : Y -> Z -> W) (f : X -> Y) (h : X -> Z)
      (l : list X) :
  zipWith g (map f l) (map h l) = map (fun a => g (f a) (h a)) l.
Proof.
  induction l as [|a l IH]; simpl.
  - reflexivity.
  - now rewrite IH.
Qed.

Lemma repeat_as_map_const {X Y : Type} (b : Y) (l : list X) :
  repeat b (length l) = map (fun _ => b) l.
Proof.
  induction l as [|a l IH]; simpl.
  - reflexivity.
  - now rewrite IH.
Qed.

Lemma x_length (wx : R) (nx : nat) : length (Common.x wx nx) = nx.
Proof. unfold Common.x, linspace. now rewrite length_map, length_seq. Qed.

Lemma ut_closed (C D S wx : R) (nx : nat) (t : R) :
  Common.ut C D S wx nx t
  = map (fun xi =>
           sin (1 * (xi - C * t)) * exp ((- D * (1 * 1) + S) * t)
           + sin (3 * (xi - C * t)) * exp ((- D * (3 * 3) + S) * t)
           + cos (2 * (xi - C * t)) * exp ((- D * (2 * 2) + S) * t))
        (Common.x wx nx).
Proof.
  unfold Common.ut, Common.k_s, Common.k_c. cbn [fold_left].
  rewrite repeat_as_map_const, !zipWith_map_same.
  apply map_ext. intros xi. ring.
Qed.

Lemma u_init_closed (wx : R) (nx : nat) :
  Common.u_init wx nx
  = map (fun xi => sin xi + sin (3 * xi) + cos (2 * xi)) (Common.x wx nx).
Proof.
  unfold Common.u_init, Common.k_s, Common.k_c. cbn [fold_left].
  rewrite repeat_as_map_const, !zipWith_map_same.
  apply map_ext. intros xi. rewrite Rmult_1_l. ring.
Qed.

(** X14.  The two harmonic loops build the field
    [sin x + sin 3x + cos 2x] on the [nx] grid points; the reference
    solution [ut] has [nx] entries at every time, starts from that field
    at [t = 0], and without convection and diffusion is the field scaled
    by [exp(S*t)]. *)
Theorem reference_solution_starts_at_initial_field
        (C D S wx : R) (nx : nat) (t : R) :
  Common.u_init wx nx
  = map (fun xi => sin xi + sin (3 * xi) + cos (2 * xi)) (Common.x wx nx)
  /\ length (Common.u_init wx nx) = nx
  /\ length (Common.ut C D S wx nx t) = nx
  /\ Common.ut C D S wx nx 0 = Common.u_init wx nx
  /\ Common.ut 0 0 S wx nx t = map (fun a => a * exp (S * t)) (Common.u_init wx nx).
Proof.
  split; [apply u_init_closed|].
  split; [now rewrite u_init_closed, length_map, x_length|].
  split; [now rewrite ut_closed, length_map, x_length|].
  split.
  - rewrite ut_closed, u_init_closed. apply map_ext. intros xi.
    rewrite !Rmult_0_r, !Rminus_0_r, exp_0, Rmult_1_l. ring.
  - rewrite ut_closed, u_init_closed, map_map. apply map_ext. intros xi.
    replace (1 * (xi - 0 * t)) with xi by ring.
    replace (3 * (xi - 0 * t)) with (3 * xi) by ring.
    replace (2 * (xi - 0 * t)) with (2 * xi) by ring.
    replace ((- 0 * (1 * 1) + S) * t) with (S * t) by ring.
    replace ((- 0 * (3 * 3) + S) * t) with (S * t) by ring.
    replace ((- 0 * (2 * 2) + S) * t) with (S * t) by ring.
    ring.
Qed.

(** X15.  For a nonzero field the stored norm undoes the normalization:
    [u0 * u_init_norm] is the field again. *)
Theorem norm_restores_field (u : list R) :
  Exists (fun a => a <> 0) u ->
  map (fun a => a * Common.u_init_norm u) (Common.u0 u) = u.
Proof.
  intros Hu. assert (Hpos := u_init_norm_pos u Hu).
  unfold Common.u0. rewrite map_map.
  rewrite (map_ext _ (fun a => a)) by (intros a; field; lra).
  apply map_id.
Qed.

Lemma norm_restores_field_witness :
  map (fun a => a * Common.u_init_norm [3; 4]) (Common.u0 [3; 4]) = [3; 4].
Proof.
  apply (norm_restores_field [3; 4]). apply Exists_cons_hd. lra.
Defined.

(** ** Completeness of the transform *)

Lemma cis_not_1_wide (phi : R) :
  - (2 * PI) < phi < 2 * PI -> phi <> 0 -> cis phi <> C1.
Proof.
  intros [Hlo Hhi] Hnz. assert (HPI := PI_RGT_0).
  destruct (Rle_dec phi (- PI)) as [Hl|Hl].
  - replace phi with ((phi + 2 * PI) - 2 * INR 1 * PI) by (simpl; ring).
    rewrite cis_minus_period. apply cis_not_1; lra.
  - destruct (Rle_dec phi PI) as [Hm|Hm].
    + apply cis_not_1; lra.
    + rewrite <- (cis_minus_period phi 1). apply cis_not_1; simpl; lra.
Qed.

Lemma roots_orthogonality (N j n : nat) :
  (j < N)%nat -> (n < N)%nat ->
  Csigma N (fun i => cis (INR i * (2 * PI * (INR j - INR n) / INR N)))
  = if Nat.eqb j n then RtoC (INR N) else C0.
Proof.
  intros Hj Hn.
  assert (HN : 0 < INR N) by (apply lt_0_INR; lia).
  assert (HPI := PI_RGT_0).
  destruct (Nat.eqb_spec j n) as [->|Hne].
  - rewrite <- Csigma_const_1. apply Csigma_ext. intros i _.
    rewrite <- cis_0. f_equal. field. lra.
  - set (phi := 2 * PI * (INR j - INR n) / INR N).
    assert (Hj0 : 0 <= INR j < INR N) by (split; [apply pos_INR | now apply lt_INR]).
    assert (Hn0 : 0 <= INR n < INR N) by (split; [apply pos_INR | now apply lt_INR]).
    assert (Hjn : INR j <> INR n) by (intros E; apply INR_eq in E; lia).
    assert (Hd : - 1 < (INR j - INR n) / INR N < 1).
    { split.
      - apply (Rmult_lt_reg_r (INR N)); [exact HN|].
        unfold Rdiv. rewrite Rmult_assoc, Rinv_l by lra. lra.
      - apply (Rmult_lt_reg_r (INR N)); [exact HN|].
        unfold Rdiv. rewrite Rmult_assoc, Rinv_l by lra. lra. }
    assert (Hphi : phi = 2 * PI * ((INR j - INR n) / INR N))
      by (unfold phi; field; lra).
    assert (Hrange : - (2 * PI) < phi < 2 * PI) by (rewrite Hphi; split; nra).
    assert (Hnz : phi <> 0).
    { rewrite Hphi. intros E.
      assert (E' : (INR j - INR n) / INR N = 0) by nra.
      apply (f_equal (fun x => x * INR N)) in E'.
      unfold Rdiv in E'. rewrite Rmult_assoc, Rinv_l in E' by lra. lra. }
    assert (Hz := cis_not_1_wide phi Hrange Hnz).
    assert (G := geometric_sum phi N).
    assert (Hfull : cis (INR N * phi) = C1).
    { replace (INR N * phi) with (2 * INR j * PI - 2 * INR n * PI)
        by (unfold phi; field; lra).
      rewrite cis_minus_period. apply cis_2PI_multiple. }
    rewrite Hfull in G.
    replace (Csub C1 C1) with C0 in G by ring.
    apply Cmul_integral in G. destruct G as [G|G]; [|exact G].
    exfalso. apply Hz.
    transitivity (Cadd (Csub (cis phi) C1) C1); [ring|].
    rewrite G. ring.
Qed.

Lemma inverse_transform (v : list R) (j : nat) :
  (j < length v)%nat ->
  Csigma (length v) (fun i =>
    Cmul (nth i (fft_forward v) C0)
         (cis (2 * PI * INR i * INR j / INR (length v))))
  = RtoC (nth j v 0).
Proof.
  intros Hj. set (N := length v).
  assert (HN : INR N <> 0) by (apply not_0_INR; unfold N; lia).
  rewrite (Csigma_ext _ _
             (fun i => Csigma N (fun n =>
                Cmul (RtoC (/ INR N * nth n v 0))
                     (cis (INR i * (2 * PI * (INR j - INR n) / INR N)))))).
  - rewrite Csigma_swap.
    rewrite (Csigma_ext _ _
               (fun n => Cmul (RtoC (/ INR N * nth n v 0))
                              (if Nat.eqb j n then RtoC (INR N) else C0))).
    + rewrite (Csigma_single N j).
      * rewrite Nat.eqb_refl.
        apply complex_eq; cbn [re im Cmul RtoC]; field; exact HN.
      * exact Hj.
      * intros n Hn Hne.
        destruct (Nat.eqb_spec j n); [congruence | ring].
    + intros n Hn. rewrite Csigma_mul_l.
      now rewrite (roots_orthogonality N j n Hj Hn).
  - intros i Hi.
    rewrite (fft_forward_nth v i Hi). fold N. rewrite Cdivr_as_mul.
    rewrite <- Csigma_mul_l, <- Csigma_mul_r.
    apply Csigma_ext. intros n Hn.
    replace (INR i * (2 * PI * (INR j - INR n) / INR N))
      with (- (2 * PI * INR i * INR n / INR N) + 2 * PI * INR i * INR j / INR N)
      by (field; exact HN).
    rewrite cis_plus.
    replace (RtoC (/ INR N * nth n v 0))
      with (Cmul (RtoC (/ INR N)) (RtoC (nth n v 0)))
      by (apply complex_eq; simpl; ring).
    ring.
Qed.

Lemma inverse_basis_angle (ny : nat) (wy : R) (i j : nat) :
  (i < ny)%nat -> wy <> 0 ->
  inverse_basis ny wy (nth i (Common.kv ny wy) 0) j
  = cis (2 * PI * INR i * INR j / INR ny).
Proof.
  intros Hi Hwy.
  assert (HN : INR ny <> 0) by (apply not_0_INR; lia).
  unfold inverse_basis. rewrite (kv_nth ny wy i Hi).
  transitivity (cis (2 * PI * IZR (FFT_bin ny i) * INR j / INR ny)).
  { rewrite <- Cexp_imaginary. f_equal.
    apply complex_eq; simpl; field; split; assumption. }
  unfold FFT_bin. destruct (Nat.leb i ((ny - 1) / 2)).
  - now rewrite <- INR_IZR_INZ.
  - rewrite minus_IZR, <- !INR_IZR_INZ.
    replace (2 * PI * (INR i - INR ny) * INR j / INR ny)
      with (2 * PI * INR i * INR j / INR ny - 2 * INR j * PI)
      by (field; exact HN).
    apply cis_minus_period.
Qed.

Lemma phase_is_inverse_basis (m : nat) (wy k : R) :
  Common.phase (2 * m) wy k = inverse_basis (2 * m) wy k (2 * m / 2).
Proof.
  unfold Common.phase, inverse_basis, Common.idx.
  rewrite Nat.mul_comm, Nat.div_mul by lia.
  do 4 f_equal. rewrite mult_INR. simpl. field.
Qed.

(** X16.  The weights of the recombination are the inverse basis of the
    transform: for every index [j] of the axis, the coefficients [fv]
    weighted by [exp(1.j*pi*kv[i]*wy/2*2*j/ny)] sum to [v[j]]; on an
    even grid the weight the script uses is the one of [j = ny/2]. *)
Theorem coefficients_reconstruct_profile
        (ny : nat) (wy : R) (v : list R) (j : nat) :
  wy <> 0 -> length v = ny -> (j < ny)%nat ->
  Csigma ny (fun i =>
    Cmul (nth i (Common.fv v) C0)
         (inverse_basis ny wy (nth i (Common.kv ny wy) 0) j))
  = RtoC (nth j v 0)
  /\ (forall m k, ny = (2 * m)%nat ->
        Common.phase ny wy k = inverse_basis ny wy k (ny / 2)).
Proof.
  intros Hwy Hl Hj. split.
  - rewrite <- (inverse_transform v j) by (rewrite Hl; exact Hj).
    rewrite Hl. apply Csigma_ext. intros i Hi.
    now rewrite (inverse_basis_angle ny wy i j Hi Hwy).
  - intros m k ->. apply phase_is_inverse_basis.
Qed.

Lemma coefficients_reconstruct_profile_witness :
  Csigma 3 (fun i =>
    Cmul (nth i (Common.fv [1; 2; 5]) C0)
         (inverse_basis 3 8 (nth i (Common.kv 3 8) 0) 2))
  = RtoC (nth 2 [1; 2; 5] 0)
  /\ (forall m k, 3%nat = (2 * m)%nat ->
        Common.phase 3 8 k = inverse_basis 3 8 k (3 / 2)).
Proof.
  apply (coefficients_reconstruct_profile 3 8 [1; 2; 5] 2).
  - lra.
  - reflexivity.
  - lia.
Defined.

(** ** Conjugate pairs of frequency components *)

Lemma Cconj_Csigma (n : nat) (f : nat -> complex) :
  Cconj (Csigma n f) = Csigma n (fun i => Cconj (f i)).
Proof.
  induction n as [|n IH].
  - apply complex_eq; simpl; ring.
  - rewrite !Csigma_succ, <- IH. apply complex_eq; simpl; ring.
Qed.

Lemma Cabs_Cconj (a : complex) : Cabs (Cconj a) = Cabs a.
Proof. unfold Cabs, Cconj. simpl. f_equal. ring. Qed.

Lemma FFT_bin_mirror (n i : nat) :
  (0 < i < n)%nat -> (2 * i <> n)%nat ->
  FFT_bin n (n - i) = (- FFT_bin n i)%Z.
Proof.
  intros Hi Hne. unfold FFT_bin.
  assert (H := Nat.div_mod_eq (n - 1) 2).
  assert (H2 : ((n - 1) mod 2 < 2)%nat) by (apply Nat.mod_upper_bound; lia).
  destruct (Nat.leb_spec (n - i) ((n - 1) / 2));
    destruct (Nat.leb_spec i ((n - 1) / 2)); lia.
Qed.

Lemma fft_forward_mirror (v : list R) (i : nat) :
  (0 < i < length v)%nat ->
  nth (length v - i) (fft_forward v) C0 = Cconj (nth i (fft_forward v) C0).
Proof.
  intros Hi. set (N := length v).
  assert (HN : INR N <> 0) by (apply not_0_INR; unfold N; lia).
  rewrite (fft_forward_nth v (N - i)) by (unfold N; lia).
  rewrite (fft_forward_nth v i) by lia. fold N.
  rewrite !Cdivr_as_mul.
  transitivity (Cmul (RtoC (/ INR N))
                  (Cconj (Csigma N (fun n =>
                     Cmul (RtoC (nth n v 0))
                          (cis (- (2 * PI * INR i * INR n / INR N))))))).
  - f_equal. rewrite Cconj_Csigma. apply Csigma_ext. intros n Hn.
    rewrite minus_INR by lia.
    replace (- (2 * PI * (INR N - INR i) * INR n / INR N))
      with (2 * PI * INR i * INR n / INR N - 2 * INR n * PI)
      by (field; exact HN).
    rewrite cis_minus_period.
    apply complex_eq; simpl; rewrite ?cos_neg, ?sin_neg; ring.
  - apply complex_eq; simpl; ring.
Qed.

(** X17.  The frequency components come in conjugate pairs: for
    [0 < i < ny] the coefficient of bin [ny - i] is the conjugate of the
    one of bin [i], so both have the same weight [|c|], and away from
    the middle bin of an even grid the wavenumbers are opposite. *)
Theorem components_come_in_conjugate_pairs
        (ny : nat) (wy : R) (v : list R) (i : nat) :
  length v = ny -> (0 < i < ny)%nat ->
  nth (ny - i) (Common.fv v) C0 = Cconj (nth i (Common.fv v) C0)
  /\ Cabs (nth (ny - i) (Common.fv v) C0) = Cabs (nth i (Common.fv v) C0)
  /\ ((2 * i <> ny)%nat ->
      nth (ny - i) (Common.kv ny wy) 0 = - nth i (Common.kv ny wy) 0).
Proof.
  intros Hl Hi.
  assert (E : nth (ny - i) (Common.fv v) C0 = Cconj (nth i (Common.fv v) C0)).
  { unfold Common.fv. rewrite <- Hl. apply fft_forward_mirror. now rewrite Hl. }
  split; [exact E|]. split; [rewrite E; apply Cabs_Cconj|].
  intros Hne. rewrite !kv_nth by lia.
  rewrite (FFT_bin_mirror ny i Hi Hne), opp_IZR. ring.
Qed.

Lemma components_come_in_conjugate_pairs_witness :
  nth (4 - 1) (Common.fv [1; 2; 5; 7]) C0
  = Cconj (nth 1 (Common.fv [1; 2; 5; 7]) C0)
  /\ Cabs (nth (4 - 1) (Common.fv [1; 2; 5; 7]) C0)
     = Cabs (nth 1 (Common.fv [1; 2; 5; 7]) C0)
  /\ ((2 * 1 <> 4)%nat ->
      nth (4 - 1) (Common.kv 4 8) 0 = - nth 1 (Common.kv 4 8) 0).
Proof.
  apply (components_come_in_conjugate_pairs 4 8 [1; 2; 5; 7] 1).
  - reflexivity.
  - lia.
Defined.

(** ** The unfloored profile *)

Lemma y_nth (ny : nat) (wy shift : R) (i : nat) :
  (i < ny)%nat ->
  nth i (Common.y ny wy shift) 0
  = INR i * (PI * wy / INR ny) - PI * (wy / 2 + shift).
Proof.
  intros Hi. unfold Common.y, linspace.
  rewrite nth_map_seq by exact Hi. rewrite Nat.add_0_l.
  assert (HN : INR ny <> 0) by (apply not_0_INR; lia).
  field. exact HN.
Qed.

Lemma profile_right_of_shift (wy shift alpha bzone vy : R) :
  bzone <= 0 ->
  - PI * shift <= vy < PI * (wy / 2 - shift) ->
  0 < wy ->
  AuxiliaryProfile wy shift alpha bzone vy = exp (- vy).
Proof.
  intros Hb [Hlo Hhi] Hwy. assert (HPI := PI_RGT_0).
  unfold AuxiliaryProfile.
  destruct (Rle_dec _ _) as [_|N]; [|exfalso; apply N; nra].
  destruct (Rle_dec _ _) as [_|N]; [|exfalso; apply N; nra].
  destruct (Rlt_dec _ _) as [Hs|_]; [exfalso; lra | reflexivity].
Qed.

(** X18.  [v_init0] has [ny] entries, [exp(y)] before the middle and
    [exp(-y)] from the middle on; on an even grid with a positive width
    and no buffer zone it coincides with [v_init] from the middle on, the
    two differing only where [v_init] takes its floored branch. *)
Theorem v_init0_agrees_on_upper_half
        (m : nat) (wy shift alpha bzone : R) :
  (1 <= m)%nat -> 0 < wy -> bzone <= 0 -> alpha <> 0 ->
  let ny := (2 * m)%nat in
  exists v,
    Common.v_init ny wy shift alpha bzone = Some v
    /\ length (Discretized.v_init0 ny wy shift) = ny
    /\ (forall i, (i < m)%nat ->
          nth i (Discretized.v_init0 ny wy shift) 0
          = exp (nth i (Common.y ny wy shift) 0))
    /\ (forall i, (m <= i < ny)%nat ->
          nth i (Discretized.v_init0 ny wy shift) 0
          = exp (- nth i (Common.y ny wy shift) 0)
          /\ nth i (Discretized.v_init0 ny wy shift) 0 = nth i v 0).
Proof.
  intros Hm Hwy Hb Ha ny. assert (HPI := PI_RGT_0).
  exists (map (AuxiliaryProfile wy shift alpha bzone) (Common.y ny wy shift)).
  split; [now apply v_init_policy|].
  assert (Hh : (ny / 2 = m)%nat).
  { unfold ny. rewrite Nat.mul_comm. apply Nat.div_mul. lia. }
  assert (Hy := y_length ny wy shift).
  assert (Hf : length (firstn m (Common.y ny wy shift)) = m).
  { rewrite length_firstn, Hy. unfold ny. lia. }
  unfold Discretized.v_init0. rewrite Hh.
  split.
  { rewrite length_app, !length_map, length_firstn, length_skipn, Hy.
    unfold ny. lia. }
  split.
  - intros i Hi.
    rewrite app_nth1 by (rewrite length_map, Hf; exact Hi).
    rewrite (nth_map_in _ _ i 0) by (rewrite Hf; exact Hi).
    now rewrite nth_firstn, (proj2 (Nat.ltb_lt i m) Hi).
  - intros i Hi.
    assert (E : nth i (map exp (firstn m (Common.y ny wy shift))
                       ++ map (fun a => exp (- a)) (skipn m (Common.y ny wy shift))) 0
                = exp (- nth i (Common.y ny wy shift) 0)).
    { rewrite app_nth2 by (rewrite length_map, Hf; lia).
      rewrite length_map, Hf.
      rewrite (nth_map_in _ _ (i - m) 0) by (rewrite length_skipn, Hy; lia).
      rewrite nth_skipn. do 3 f_equal. lia. }
    split; [exact E|]. rewrite E.
    rewrite (nth_map_in _ _ i 0) by (rewrite Hy; lia).
    symmetry. apply profile_right_of_shift; try assumption.
    split.
    + rewrite y_nth by lia.
      assert (Hm0 : 0 < INR m) by (apply lt_0_INR; lia).
      assert (Him : INR m <= INR i) by (apply le_INR; lia).
      unfold ny. rewrite mult_INR.
      replace (INR 2) with 2 by (simpl; ring).
      replace (INR i * (PI * wy / (2 * INR m)))
        with (PI * wy / 2 * (INR i / INR m)) by (field; lra).
      assert (Hr : 1 <= INR i / INR m).
      { apply (Rmult_le_reg_r (INR m)); [exact Hm0|].
        unfold Rdiv. rewrite Rmult_assoc, Rinv_l by lra. lra. }
      assert (Hpw : 0 < PI * wy) by (apply Rmult_lt_0_compat; lra).
      assert (Hprod : 0 <= PI * wy * (INR i / INR m - 1))
        by (apply Rmult_le_pos; lra).
      lra.
    + apply (y_range ny wy shift); [exact Hwy|].
      apply nth_In. rewrite Hy. lia.
Qed.

Lemma v_init0_agrees_on_upper_half_witness :
  let ny := (2 * 2)%nat in
  exists v,
    Common.v_init ny 8 0 10 0 = Some v
    /\ length (Discretized.v_init0 ny 8 0) = ny
    /\ (forall i, (i < 2)%nat ->
          nth i (Discretized.v_init0 ny 8 0) 0
          = exp (nth i (Common.y ny 8 0) 0))
    /\ (forall i, (2 <= i < ny)%nat ->
          nth i (Discretized.v_init0 ny 8 0) 0
          = exp (- nth i (Common.y ny 8 0) 0)
          /\ nth i (Discretized.v_init0 ny 8 0) 0 = nth i v 0).
Proof.
  apply (v_init0_agrees_on_upper_half 2 8 0 10 0); try lra; lia.
Defined.

(** ** When the scripts run to completion *)



Section Completion.
Variables (C D S wx : R) (nq nx ny : nat) (wy shift alpha bzone : R).
Variables (u v : list R) (expm : cmatrix -> cmatrix).

Hypothesis register : nx = (2 ^ nq)%nat.
Hypothesis field_on_grid : length u = nx.
Hypothesis field_nonzero : Exists (fun a => a <> 0) u.
Hypothesis axis_nonempty : (1 <= ny)%nat.
Hypothesis profile : Common.v_init ny wy shift alpha bzone = Some v.
Hypothesis coefficients_nonzero : Forall (fun c => c <> C0) (Common.fv v).





End Completion.




